(** * FourierAnalyzer: power spectrum of a point-sampling pattern

    A shallow embedding of [src/analyzer/FourierAnalyzer.cpp].

    Conventions of the embedding.
    - C++ [int] values are integers of [Z]; the grid has 512 * 512 cells and
      trial counters are taken to stay below 2^31, so no wrap-around is
      written out.
    - [float] and [double] values are modelled by ideal arithmetic: a finite
      value is a real number of [R] and every operation on finite values is
      exact (rounding, overflow and signed zeros are not modelled).  The
      IEEE special values that the code can produce through a division by
      zero are kept ([fval]).  The coordinates of the points and the
      frequency step are finite, so the transform is computed in [R].
    - A heap array ([new T[n]()]) is a total function from its index to its
      content, zero-initialised; a store replaces one cell.  Indices are not
      checked against the allocated size: on the square grids that the
      constructor builds every loop stays inside its buffer
      ([grid_loops_stay_in_buffer], [radial_histogram_stays_in_range]), and
      nothing is stated about the transform on any other grid.
    - A counted [for] loop is [for_]: the body is run for 0, 1, ..., n-1. *)

From Stdlib Require Import String ZArith List Reals Lra Lia Bool.
Import ListNotations.
Local Open Scope Z_scope.

(** ** Floating-point values *)

(** A finite value, the two infinities and NaN.  Signed zeros are not
    distinguished: every zero divisor in the program is a converted count,
    that is +0. *)
Inductive fval : Type :=
| Fin (x : R)
| PInf
| NInf
| NaN.

Definition fadd (a b : fval) : fval :=
  match a, b with
  | NaN, _ | _, NaN => NaN
  | PInf, NInf | NInf, PInf => NaN
  | PInf, _ | _, PInf => PInf
  | NInf, _ | _, NInf => NInf
  | Fin x, Fin y => Fin (x + y)
  end.

Definition fdiv (a b : fval) : fval :=
  match a, b with
  | NaN, _ | _, NaN => NaN
  | Fin x, Fin y =>
      if Req_dec_T y 0 then
        if Req_dec_T x 0 then NaN
        else if Rlt_dec 0 x then PInf else NInf
      else Fin (x / y)
  | Fin _, (PInf | NInf) => Fin 0
  | PInf, Fin y => if Rle_dec 0 y then PInf else NInf
  | NInf, Fin y => if Rle_dec 0 y then NInf else PInf
  | (PInf | NInf), (PInf | NInf) => NaN
  end.

(** Conversion of an [int] (or [size_t]) to a floating-point value. *)
Definition of_int (z : Z) : fval := Fin (IZR z).

Definition is_finite (a : fval) : Prop :=
  match a with Fin _ => True | _ => False end.

(** Conversion of a finite [double] to [int]: truncation toward zero. *)
Definition double_to_int (x : R) : Z :=
  if Rle_dec 0 x then Int_part x else - Int_part (- x).

(** ** Arrays and loops *)

Definition array (T : Type) : Type := Z -> T.

Definition new_array {T : Type} (zero : T) : array T := fun _ => zero.

Definition store {T : Type} (a : array T) (i : Z) (v : T) : array T :=
  fun j => if Z.eq_dec j i then v else a j.

(** [for (int i = 0; i < n; i++) body] as a state transformer. *)
Fixpoint for_ {S : Type} (n : nat) (body : Z -> S -> S) (s : S) : S :=
  match n with
  | O => s
  | S k => body (Z.of_nat k) (for_ k body s)
  end.

(** ** The analyzer object *)

Record Point2d : Type := mkPoint2d { px : R; py : R }.

Record FourierAnalyzer : Type := mkFourierAnalyzer {
  _nSamples : list Z;
  _nTrials : Z;
  _trialStepOut : Z;
  _frequencyStep : R;
  _xRes : Z;
  _yRes : Z;
  _pts : list Point2d;
  _complexSpectrum : array (R * R);
  _powerSpectrum : array fval
}.

Definition set_pts (fa : FourierAnalyzer) (pts : list Point2d) : FourierAnalyzer :=
  mkFourierAnalyzer (_nSamples fa) (_nTrials fa) (_trialStepOut fa)
    (_frequencyStep fa) (_xRes fa) (_yRes fa) pts
    (_complexSpectrum fa) (_powerSpectrum fa).

Definition set_complexSpectrum (fa : FourierAnalyzer) (cs : array (R * R))
  : FourierAnalyzer :=
  mkFourierAnalyzer (_nSamples fa) (_nTrials fa) (_trialStepOut fa)
    (_frequencyStep fa) (_xRes fa) (_yRes fa) (_pts fa)
    cs (_powerSpectrum fa).

Definition set_powerSpectrum (fa : FourierAnalyzer) (ps : array fval)
  : FourierAnalyzer :=
  mkFourierAnalyzer (_nSamples fa) (_nTrials fa) (_trialStepOut fa)
    (_frequencyStep fa) (_xRes fa) (_yRes fa) (_pts fa)
    (_complexSpectrum fa) ps.

(** The constructor.  The four configuration values are what the command
    line parser ([CLParser], of [cmdlnparser.h]) returns for the options
    [NSampStr], [nTrialsStr], [--tstep] and [--wstep]; the resolution is the
    constant 512 and both buffers are zero-initialised. *)
Definition FourierAnalyzer_new (nSamples : list Z) (nTrials trialStepOut : Z)
    (frequencyStep : R) : FourierAnalyzer :=
  {| _nSamples := nSamples;
     _nTrials := nTrials;
     _trialStepOut := trialStepOut;
     _frequencyStep := frequencyStep;
     _xRes := 512;
     _yRes := 512;
     _pts := [];
     _complexSpectrum := new_array (0%R, 0%R);
     _powerSpectrum := new_array (Fin 0) |}.

(** ** continuous_fourier_spectrum *)

(** Modelled from the spec: [twopi] is declared in [common.h], which is not
    among the sources; the spec writes the exponent as -2 pi (...). *)
Definition twopi : R := (2 * PI)%R.

(** The innermost loop over the points: [fx += cos(exp); fy += sin(exp)]. *)
Definition point_sum (wx wy : R) (pts : list Point2d) : R * R :=
  fold_left
    (fun (f : R * R) (p : Point2d) =>
       let exp := (- twopi * (wx * px p + wy * py p))%R in
       ((fst f + cos exp)%R, (snd f + sin exp)%R))
    pts (0%R, 0%R).

(** The value written to cell (row, col). *)
Definition spectrum_cell (fa : FourierAnalyzer) (row col : Z) : R * R :=
  let half_xRes := double_to_int (IZR (_xRes fa) * / 2) in
  let half_yRes := double_to_int (IZR (_yRes fa) * / 2) in
  let wx := (IZR (col - half_xRes) * _frequencyStep fa)%R in
  let wy := (IZR (row - half_yRes) * _frequencyStep fa)%R in
  point_sum wx wy (_pts fa).

(** The [parallel_for] runs over [blocked_range2d(0, _xRes, 16, 0, _yRes, 16)]:
    rows range over [0, _xRes) and columns over [0, _yRes).  On a square
    grid every cell is written by one task from the read-only point set, so
    the tiles are run here one after the other.  On a grid that is not
    square the stores at [row * _xRes + col] collide or, for
    [_xRes > _yRes], leave the buffer of [_xRes * _yRes] cells, which a
    total array does not show: the definition is meant for square grids
    only, and every statement about it assumes one. *)
Definition continuous_fourier_spectrum (fa : FourierAnalyzer) : FourierAnalyzer :=
  set_complexSpectrum fa
    (for_ (Z.to_nat (_xRes fa))
       (fun row cs =>
          for_ (Z.to_nat (_yRes fa))
            (fun col cs =>
               store cs (row * _xRes fa + col) (spectrum_cell fa row col))
            cs)
       (_complexSpectrum fa)).

(** ** power_fourier_spectrum *)

Definition power_cell (fa : FourierAnalyzer) (r c : Z) : fval :=
  let real := fst (_complexSpectrum fa (r * _xRes fa + c)) in
  let imag := snd (_complexSpectrum fa (r * _xRes fa + c)) in
  fdiv (Fin (real * real + imag * imag)%R)
       (of_int (Z.of_nat (List.length (_pts fa)))).

Definition power_fourier_spectrum (fa : FourierAnalyzer) : FourierAnalyzer :=
  set_powerSpectrum fa
    (for_ (Z.to_nat (_yRes fa))
       (fun r ps =>
          for_ (Z.to_nat (_xRes fa))
            (fun c ps => store ps (r * _xRes fa + c) (power_cell fa r c))
            ps)
       (_powerSpectrum fa)).

(** ** compute_radial_mean_powerspectrum *)

(** The body of the two loops over the cells: the histogram and the counter
    are the pair [acc]. *)
Definition radial_cell (fa : FourierAnalyzer) (halfwidth r c : Z)
    (acc : array fval * array Z) : array fval * array Z :=
  let xcenter := halfwidth in
  let ycenter := halfwidth in
  let dx := IZR (xcenter - c) in
  let dy := IZR (ycenter - r) in
  let distance := sqrt (dx * dx + dy * dy)%R in
  let imgIndex := r * _xRes fa + c in
  let index := double_to_int distance in
  if Rgt_dec distance (IZR (halfwidth - 1)) then acc
  else
    (store (fst acc) index (fadd (fst acc index) (_powerSpectrum fa imgIndex)),
     store (snd acc) index (snd acc index + 1)).

Definition radial_halfwidth (fa : FourierAnalyzer) : Z :=
  double_to_int (IZR (_xRes fa) * / 2).

(** The histogram and the counter after all cells were visited. *)
Definition radial_accumulate (fa : FourierAnalyzer) : array fval * array Z :=
  let halfwidth := radial_halfwidth fa in
  for_ (Z.to_nat (_yRes fa))
    (fun r acc =>
       for_ (Z.to_nat (_xRes fa))
         (fun c acc => radial_cell fa halfwidth r c acc)
         acc)
    (new_array (Fin 0), new_array 0).

(** [radialHistogram[i] /= double(histoCounter[i])] for every bin. *)
Definition radial_divide (halfwidth : Z) (acc : array fval * array Z)
  : array fval :=
  for_ (Z.to_nat halfwidth)
    (fun i hist => store hist i (fdiv (hist i) (of_int (snd acc i))))
    (fst acc).

(** The histogram as it is when the file is written. *)
Definition radial_profile (fa : FourierAnalyzer) : array fval :=
  radial_divide (radial_halfwidth fa) (radial_accumulate fa).

(** The lines of the text file: bin index and value, the last five bins
    left out. *)
Definition radial_lines (halfwidth : Z) (hist : array fval)
  : list (Z * fval) :=
  for_ (Z.to_nat (halfwidth - 5))
    (fun i lines => lines ++ [(i, hist i)])
    [].

(** The function either leaves the process through [exit(-2)] or writes the
    file. *)
Inductive radial_result : Type :=
| RadialExit (code : Z)
| RadialWritten (lines : list (Z * fval)).

Definition compute_radial_mean_powerspectrum (fa : FourierAnalyzer)
  : radial_result :=
  if negb (_xRes fa =? _yRes fa) then RadialExit (-2)
  else RadialWritten (radial_lines (radial_halfwidth fa) (radial_profile fa)).

(** ** RunAnalysis *)

(** A file name is built from the sampler's type, the sample count and the
    trial index; the zero padding of the index ([paddedzerosN], from
    [common.h]) is not among the sources, so the name is kept as its three
    components. *)
Record snapshot_name : Type := mkName {
  name_type : string;
  name_n : Z;
  name_trial : Z
}.

Inductive file_event : Type :=
| ExrFile (name : snapshot_name) (img : array fval) (xres yres : Z)
| RadialFile (name : snapshot_name) (lines : list (Z * fval)).

(** [powerAccum[index] += _powerSpectrum[index]] over the grid. *)
Definition accumulate (fa : FourierAnalyzer) (powerAccum : array fval)
  : array fval :=
  for_ (Z.to_nat (_yRes fa))
    (fun r acc =>
       for_ (Z.to_nat (_xRes fa))
         (fun c acc =>
            let index := r * _xRes fa + c in
            store acc index (fadd (acc index) (_powerSpectrum fa index)))
         acc)
    powerAccum.

(** [_powerSpectrum[index] = powerAccum[index] / float(trial)] over the grid. *)
Definition running_mean (fa : FourierAnalyzer) (powerAccum : array fval)
    (trial : Z) : FourierAnalyzer :=
  set_powerSpectrum fa
    (for_ (Z.to_nat (_yRes fa))
       (fun r ps =>
          for_ (Z.to_nat (_xRes fa))
            (fun c ps =>
               let index := r * _xRes fa + c in
               store ps index (fdiv (powerAccum index) (of_int trial)))
            ps)
       (_powerSpectrum fa)).

(** [for (i = 0; i < _xRes*_yRes; i++) _powerSpectrum[i] = 0.] *)
Definition clear_powerSpectrum (fa : FourierAnalyzer) : FourierAnalyzer :=
  set_powerSpectrum fa
    (for_ (Z.to_nat (_xRes fa * _yRes fa))
       (fun i ps => store ps i (Fin 0))
       (_powerSpectrum fa)).

(** [trial == 1 || trial % _trialStepOut == 0].  The second operand is only
    evaluated when the first is false; [%] truncates ([Z.rem]) and is
    undefined for a zero divisor ([None]). *)
Definition snapshot_due (trial trialStepOut : Z) : option bool :=
  if trial =? 1 then Some true
  else if trialStepOut =? 0 then None
  else Some (Z.rem trial trialStepOut =? 0).

(** ** Reference definitions and example inputs *)

(** The sum of [f] over the points of a set, as the formulas of the
    transform write it. *)
Fixpoint sum_over (pts : list Point2d) (f : Point2d -> R) : R :=
  match pts with
  | [] => 0%R
  | p :: rest => (f p + sum_over rest f)%R
  end.

(** An analyzer as the constructor leaves it, holding the point set [pts]. *)
Definition analyzer_with (pts : list Point2d) : FourierAnalyzer :=
  set_pts (FourierAnalyzer_new [1] 1 1 1%R) pts.

Definition origin : Point2d := mkPoint2d 0 0.

(** The radial reduction as a reference over integers, to be compared with
    [radial_cell] and [radial_accumulate].  The bin of a cell is the
    integer square root of its squared distance to the centre (R/2, R/2);
    the cell is left out when its distance itself, not its bin, exceeds
    R/2 - 1. *)
Definition radial_bin (R r c : Z) : Z :=
  Z.sqrt ((R / 2 - c) * (R / 2 - c) + (R / 2 - r) * (R / 2 - r)).

Definition radial_skipped (R r c : Z) : bool :=
  (R / 2 - 1 <? 0) ||
  ((R / 2 - 1) * (R / 2 - 1) <?
   (R / 2 - c) * (R / 2 - c) + (R / 2 - r) * (R / 2 - r)).

Definition radial_cell_spec (R : Z) (power : array fval) (r c : Z)
    (acc : array fval * array Z) : array fval * array Z :=
  if radial_skipped R r c then acc
  else
    let d := radial_bin R r c in
    (store (fst acc) d (fadd (fst acc d) (power (r * R + c))),
     store (snd acc) d (snd acc d + 1)).

Definition radial_accumulate_spec (R : Z) (power : array fval)
  : array fval * array Z :=
  for_ (Z.to_nat R)
    (fun r acc =>
       for_ (Z.to_nat R) (fun c acc => radial_cell_spec R power r c acc) acc)
    (new_array (Fin 0), new_array 0).

(** [k] copies of [v] added to zero, in ideal arithmetic. *)
Definition v_times (k : Z) (v : fval) : fval :=
  if k =? 0 then Fin 0
  else match v with
       | Fin x => Fin (IZR k * x)
       | _ => v
       end.

(** The configuration of an analyzer: what the constructor sets and no
    method changes. *)
Definition config (fa : FourierAnalyzer) : list Z * Z * Z * R * Z * Z :=
  (_nSamples fa, _nTrials fa, _trialStepOut fa, _frequencyStep fa,
   _xRes fa, _yRes fa).

(** What a written file is and which sample count and trial it belongs to. *)
Inductive file_kind : Type := Image | Profile.

Definition event_tag (e : file_event) : file_kind * Z * Z :=
  match e with
  | ExrFile name _ _ _ => (Image, name_n name, name_trial name)
  | RadialFile name _ => (Profile, name_n name, name_trial name)
  end.

(** The trials 1, 2, ..., k. *)
Definition trial_numbers (k : nat) : list Z :=
  map (fun j => 1 + Z.of_nat j) (seq 0 k).

(** The snapshot schedule: for every sample count in turn, an image and a
    radial profile at trial 1 and at every trial that is a multiple of the
    interval, among the trials 1 .. nTrials. *)
Definition snapshot_tags (n trialStepOut trial : Z) : list (file_kind * Z * Z) :=
  if (trial =? 1) || (trial mod trialStepOut =? 0)
  then [(Image, n, trial); (Profile, n, trial)]
  else [].

Definition snapshot_schedule (nSamples : list Z) (nTrials trialStepOut : Z)
  : list (file_kind * Z * Z) :=
  flat_map
    (fun n =>
       flat_map (snapshot_tags n trialStepOut)
         (trial_numbers (Z.to_nat nTrials)))
    nSamples.

(** A sampler without state that returns the requested number of points,
    all at the origin. *)
Definition origin_Sample (s : unit) (n : Z) : list Point2d * unit :=
  (repeat origin (Z.to_nat n), s).

Definition origin_GetType (s : unit) : string := "origin"%string.

(** An analyzer whose grid is not square, as no constructor call builds it. *)
Definition rectangular_analyzer : FourierAnalyzer :=
  mkFourierAnalyzer [1] 1 1 1%R 4 2 [] (new_array (0%R, 0%R))
    (new_array (Fin 0)).

(** A run over two sample counts, one trial each. *)
Definition two_counts_analyzer : FourierAnalyzer :=
  FourierAnalyzer_new [1; 2] 1 1 1%R.

(** A run over two sample counts, four trials each, a snapshot every
    second trial. *)
Definition schedule_analyzer : FourierAnalyzer :=
  FourierAnalyzer_new [1; 2] 4 2 1%R.

(** An analyzer whose power spectrum is 7 in every cell. *)
Definition constant_analyzer : FourierAnalyzer :=
  set_powerSpectrum (analyzer_with []) (new_array (Fin 7)).

(** The spectra [P 1], ..., [P k] added cell by cell, in this order, to the
    content [a0] of a cell [i] of the accumulator. *)
Fixpoint sum_of_spectra (P : nat -> array fval) (k : nat) (a0 : fval) (i : Z)
  : fval :=
  match k with
  | O => a0
  | S j => fadd (sum_of_spectra P j a0 i) (P (S j) i)
  end.

(** The argument of the cosine and the sine for the point [p] in cell
    (r, c) of an R-by-R grid with frequency step [D]. *)
Definition cell_phase (D : R) (res r c : Z) (p : Point2d) : R :=
  (- (2 * PI) *
   (IZR (c - res / 2) * D * px p + IZR (r - res / 2) * D * py p))%R.

(** A point set moved as a whole by (tx, ty). *)
Definition translate (tx ty : R) (pts : list Point2d) : list Point2d :=
  map (fun p => mkPoint2d (px p + tx) (py p + ty)) pts.

(** A written image holds NaN in cell [i]; a radial profile is not looked
    at. *)
Definition image_is_nan_at (i : Z) (e : file_event) : Prop :=
  match e with
  | ExrFile _ img _ _ => img i = NaN
  | RadialFile _ _ => True
  end.

(** Three points of the unit square. *)
Definition three_points : list Point2d :=
  [mkPoint2d (/ 4) (/ 2); mkPoint2d (3 / 4) (/ 8); origin].

(** A run with a snapshot interval of 0. *)
Definition zero_interval_analyzer : FourierAnalyzer :=
  FourierAnalyzer_new [3; 5] 2 0 1%R.

(** A run without sample counts. *)
Definition idle_analyzer : FourierAnalyzer :=
  FourierAnalyzer_new [] 4 2 1%R.

(** A sampler that counts how often it was asked. *)
Definition counting_Sample (s : nat) (n : Z) : list Point2d * nat :=
  (repeat origin (Z.to_nat n), S s).

Definition counting_GetType (s : nat) : string := "counting"%string.

Section Analysis.

(** The sampler ([Sampler], an abstract class of another file): [Sample]
    fills the emptied point vector for a requested count and may change
    the sampler's own state; [GetType] names it. *)
Variable SamplerState : Type.
Variable Sample : SamplerState -> Z -> list Point2d * SamplerState.
Variable GetType : SamplerState -> string.

(** What a run reads and writes: the analyzer, its sampler, the local
    buffer [powerAccum] of [RunAnalysis] and the files written so far. *)
Record world : Type := mkWorld {
  analyzer : FourierAnalyzer;
  sampler : SamplerState;
  powerAccum : array fval;
  files : list file_event
}.

(** A computation ends normally in a world, leaves the process through
    [exit], or hits an integer division by zero. *)
Inductive outcome : Type :=
| Normal (w : world)
| Exited (code : Z) (w : world)
| Fault (w : world).

Definition bind (o : outcome) (k : world -> outcome) : outcome :=
  match o with
  | Normal w => k w
  | Exited code w => Exited code w
  | Fault w => Fault w
  end.

(** [for (int i = lo; i < lo + n; i++) body] where the body may stop the run. *)
Fixpoint for_m (lo : Z) (n : nat) (body : Z -> world -> outcome) (w : world)
  : outcome :=
  match n with
  | O => Normal w
  | S k => bind (for_m lo k body w) (body (lo + Z.of_nat k))
  end.

(** The block of the [if]: the mean is written to [_powerSpectrum], then the
    image and the radial profile are written. *)
Definition emit_snapshot (n trial : Z) (w : world) : outcome :=
  let fa := running_mean (analyzer w) (powerAccum w) trial in
  let name := mkName (GetType (sampler w)) n trial in
  let exr := ExrFile name (_powerSpectrum fa) (_xRes fa) (_yRes fa) in
  let w1 := mkWorld fa (sampler w) (powerAccum w) (files w ++ [exr]) in
  match compute_radial_mean_powerspectrum fa with
  | RadialExit code => Exited code w1
  | RadialWritten lines =>
      Normal (mkWorld fa (sampler w) (powerAccum w)
                 (files w ++ [exr; RadialFile name lines]))
  end.

(** The power spectrum of one fresh point set of [n] requested points. *)
Definition trial_spectrum (n : Z) (w : world) : FourierAnalyzer * SamplerState :=
  let (pts, s) := Sample (sampler w) n in
  let fa := set_pts (analyzer w) pts in
  let fa := clear_powerSpectrum fa in
  let fa := continuous_fourier_spectrum fa in
  let fa := power_fourier_spectrum fa in
  (fa, s).

(** One iteration of the loop over the trials. *)
Definition trial_step (n trial : Z) (w : world) : outcome :=
  let (fa, s) := trial_spectrum n w in
  let w1 := mkWorld fa s (accumulate fa (powerAccum w)) (files w) in
  match snapshot_due trial (_trialStepOut fa) with
  | None => Fault w1
  | Some false => Normal w1
  | Some true => emit_snapshot n trial w1
  end.

(** [for (int trial = 1; trial <= _nTrials; trial++)] for one sample count. *)
Definition sample_count_trials (n : Z) (w : world) : outcome :=
  for_m 1 (Z.to_nat (_nTrials (analyzer w))) (trial_step n) w.

(** [for (int j = 0; j < _nSamples.size(); j++)] *)
Fixpoint sample_counts (ns : list Z) (w : world) : outcome :=
  match ns with
  | [] => Normal w
  | n :: rest => bind (sample_count_trials n w) (sample_counts rest)
  end.

(** [powerAccum] is allocated, zero-initialised, once before the loops. *)
Definition RunAnalysis (fa : FourierAnalyzer) (s : SamplerState) : outcome :=
  sample_counts (_nSamples fa) (mkWorld fa s (new_array (Fin 0)) []).

(** The world in which a computation ended. *)
Definition world_of (o : outcome) : world :=
  match o with
  | Normal w => w
  | Exited _ w => w
  | Fault w => w
  end.

Definition is_exit (o : outcome) : Prop :=
  match o with
  | Exited _ _ => True
  | _ => False
  end.

(** The world after the first [k] trials of the sample count [n], started
    in [w], and the power spectrum that trial [j] = 1, 2, ... adds to the
    accumulator. *)
Definition world_after_trials (n : Z) (k : nat) (w : world) : world :=
  world_of (for_m 1 k (trial_step n) w).

Definition trial_power (n : Z) (w : world) (j : nat) : array fval :=
  _powerSpectrum (fst (trial_spectrum n (world_after_trials n (j - 1) w))).

(** The state of the sampler after it was asked [k] times for [n] points,
    and after it served all trials of all sample counts of a run. *)
Definition sampler_after_trials (n : Z) (k : nat) (s : SamplerState)
  : SamplerState :=
  Nat.iter k (fun s' => snd (Sample s' n)) s.

Definition sampler_after_run (ns : list Z) (nTrials : Z) (s : SamplerState)
  : SamplerState :=
  fold_left (fun s' n => sampler_after_trials n (Z.to_nat nTrials) s') ns s.

(** * Properties *)

(** ** Conversions between [double] and [int] *)

Lemma Int_part_between (x : R) (z : Z) :
  (IZR z <= x < IZR z + 1)%R -> Int_part x = z.
Proof.
  intros [Hlo Hhi]. symmetry. apply Int_part_spec. lra.
Qed.

Lemma double_to_int_floor (x : R) (z : Z) :
  0 <= z -> (IZR z <= x < IZR z + 1)%R -> double_to_int x = z.
Proof.
  intros Hz Hx. unfold double_to_int.
  destruct (Rle_dec 0 x) as [_|Hneg].
  - now apply Int_part_between.
  - exfalso. apply Hneg. apply IZR_le in Hz. lra.
Qed.

Lemma double_to_int_half (z : Z) :
  double_to_int (IZR z * / 2) = Z.quot z 2.
Proof.
  pose proof (Z.quot_rem' z 2) as Hqr.
  pose proof (Z.rem_bound_pos z 2) as Hpos.
  pose proof (Z.rem_bound_pos_neg z 2) as Hneg.
  set (q := Z.quot z 2) in *. set (r := Z.rem z 2) in *.
  assert (Hz : IZR z = (2 * IZR q + IZR r)%R).
  { rewrite Hqr at 1. rewrite plus_IZR, mult_IZR. reflexivity. }
  unfold double_to_int. destruct (Rle_dec 0 (IZR z * / 2)) as [Hle|Hlt].
  - assert (0 <= z). { apply le_IZR. lra. }
    apply Int_part_between.
    assert (0 <= r < 2) by (apply Hpos; lia).
    assert (IZR 0 <= IZR r <= IZR 1)%R by (split; apply IZR_le; lia).
    lra.
  - assert (z < 0). { apply lt_IZR. lra. }
    assert (-2 < r <= 0) by (apply Hneg; lia).
    assert (IZR (-1) <= IZR r <= IZR 0)%R by (split; apply IZR_le; lia).
    rewrite (Int_part_between _ (- q)); [lia|].
    rewrite opp_IZR. lra.
Qed.

Lemma sqrt_IZR_bounds (n : Z) :
  0 <= n -> (IZR (Z.sqrt n) <= sqrt (IZR n) < IZR (Z.sqrt n) + 1)%R.
Proof.
  intros Hn. pose proof (Z.sqrt_spec n Hn) as [Hlo Hhi].
  pose proof (Z.sqrt_nonneg n) as Hs.
  set (s := Z.sqrt n) in *.
  assert (H0 : (0 <= IZR s)%R) by (apply IZR_le; lia).
  assert (Hs1 : IZR s = sqrt (IZR (s * s))).
  { rewrite mult_IZR. symmetry. apply sqrt_square. exact H0. }
  assert (Hs2 : (IZR s + 1)%R = sqrt (IZR (Z.succ s * Z.succ s))).
  { rewrite mult_IZR, succ_IZR. symmetry. apply sqrt_square. lra. }
  split.
  - rewrite Hs1. apply sqrt_le_1_alt. apply IZR_le. exact Hlo.
  - rewrite Hs2. apply sqrt_lt_1_alt. split.
    + apply IZR_le. exact Hn.
    + apply IZR_lt. exact Hhi.
Qed.

Lemma double_to_int_sqrt (n : Z) :
  0 <= n -> double_to_int (sqrt (IZR n)) = Z.sqrt n.
Proof.
  intros Hn. apply double_to_int_floor.
  - apply Z.sqrt_nonneg.
  - now apply sqrt_IZR_bounds.
Qed.

Lemma sqrt_IZR_gt (n m : Z) :
  0 <= n -> ((sqrt (IZR n) > IZR m)%R <-> (m < 0 \/ m * m < n)).
Proof.
  intros Hn. split.
  - intros Hgt. destruct (Z_lt_ge_dec m 0) as [|Hm]; [now left|right].
    apply lt_IZR. rewrite mult_IZR.
    assert (0 <= IZR m)%R by (apply IZR_le; lia).
    assert (0 <= IZR n)%R by (apply IZR_le; lia).
    rewrite <- (sqrt_sqrt (IZR n)) by assumption. nra.
  - intros [Hm|Hm].
    + assert (IZR m < 0)%R by (apply IZR_lt; lia).
      pose proof (sqrt_pos (IZR n)). lra.
    + destruct (Z_lt_ge_dec m 0) as [Hneg|Hpos].
      * assert (IZR m < 0)%R by (apply IZR_lt; lia).
        pose proof (sqrt_pos (IZR n)). lra.
      * assert (H0 : (0 <= IZR m)%R) by (apply IZR_le; lia).
        rewrite <- (sqrt_square (IZR m)) by exact H0.
        apply Rlt_gt. apply sqrt_lt_1_alt. split; [nra|].
        rewrite <- mult_IZR. now apply IZR_lt.
Qed.

Lemma squares_IZR (dx dy : Z) :
  (IZR dx * IZR dx + IZR dy * IZR dy)%R = IZR (dx * dx + dy * dy).
Proof. now rewrite plus_IZR, !mult_IZR. Qed.

(** ** Arrays and loops *)

(** [lia] sees through the type of arrays of integers. *)
Ltac array_lia := unfold array in *; lia.

Lemma store_eq {T : Type} (a : array T) (i : Z) (v : T) : store a i v i = v.
Proof. unfold store. destruct (Z.eq_dec i i); congruence. Qed.

Lemma store_neq {T : Type} (a : array T) (i j : Z) (v : T) :
  j <> i -> store a i v j = a j.
Proof. intros H. unfold store. destruct (Z.eq_dec j i); congruence. Qed.

(** Loop invariant: [P k s] holds of the state before iteration [k]. *)
Lemma for_invariant {S : Type} (P : nat -> S -> Prop) (body : Z -> S -> S)
    (s : S) (n : nat) :
  P O s ->
  (forall k t, (k < n)%nat -> P k t -> P (Datatypes.S k) (body (Z.of_nat k) t)) ->
  P n (for_ n body s).
Proof.
  intros H0 Hstep. induction n as [|n IH]; simpl.
  - exact H0.
  - apply Hstep; [lia|]. apply IH. intros k t Hk. apply Hstep. lia.
Qed.

Lemma for_preserves {S : Type} (P : S -> Prop) (body : Z -> S -> S)
    (s : S) (n : nat) :
  P s ->
  (forall k t, 0 <= k < Z.of_nat n -> P t -> P (body k t)) ->
  P (for_ n body s).
Proof.
  intros H0 Hstep. apply (for_invariant (fun _ => P)); [exact H0|].
  intros k t Hk. apply Hstep. lia.
Qed.

Lemma for_ext {S : Type} (f g : Z -> S -> S) (s : S) (n : nat) :
  (forall k t, 0 <= k < Z.of_nat n -> f k t = g k t) ->
  for_ n f s = for_ n g s.
Proof.
  induction n as [|n IH]; intros H; simpl; [reflexivity|].
  rewrite IH by (intros; apply H; lia). apply H. lia.
Qed.

(** A property established by iteration [k0] and kept by every iteration
    holds at the end, whatever the loop started from, as long as all
    iterations keep a side invariant [I]. *)
Lemma for_reaches {S : Type} (I P : S -> Prop) (body : Z -> S -> S)
    (s : S) (n : nat) (k0 : Z) :
  0 <= k0 < Z.of_nat n ->
  I s ->
  (forall k t, 0 <= k < Z.of_nat n -> I t -> I (body k t)) ->
  (forall t, I t -> P (body k0 t)) ->
  (forall k t, 0 <= k < Z.of_nat n -> I t -> P t -> P (body k t)) ->
  P (for_ n body s).
Proof.
  induction n as [|n IH]; intros Hk HI HstepI Hk0 HstepP; [lia|]. simpl.
  assert (HIn : I (for_ n body s)).
  { apply for_preserves; [exact HI|]. intros; apply HstepI; [lia|assumption]. }
  destruct (Z.eq_dec k0 (Z.of_nat n)) as [->|Hne].
  - now apply Hk0.
  - apply HstepP; [lia|exact HIn|].
    apply IH; try assumption; [lia| |]; intros; [apply HstepI|apply HstepP];
      solve [lia|assumption].
Qed.

(** One row of a two-level loop that rewrites cell [r * w + c] from its
    own old content. *)
Lemma row_update {T : Type} (g : Z -> T -> T) (base : Z) (a0 : array T)
    (nc : nat) (i : Z) :
  for_ nc (fun c a => store a (base + c) (g c (a (base + c)))) a0 i =
  if (base <=? i) && (i <? base + Z.of_nat nc) then g (i - base) (a0 i)
  else a0 i.
Proof.
  induction nc as [|nc IH].
  - simpl. destruct (Z.leb_spec base i), (Z.ltb_spec i (base + 0));
      simpl; solve [reflexivity | lia].
  - change (for_ (S nc) ?f a0) with
      (store (for_ nc f a0) (base + Z.of_nat nc)
         (g (Z.of_nat nc) (for_ nc f a0 (base + Z.of_nat nc)))).
    rewrite Nat2Z.inj_succ. unfold store at 1.
    destruct (Z.eq_dec i (base + Z.of_nat nc)) as [->|Hne]; rewrite IH.
    + destruct (Z.leb_spec base (base + Z.of_nat nc)),
               (Z.ltb_spec (base + Z.of_nat nc) (base + Z.of_nat nc)),
               (Z.ltb_spec (base + Z.of_nat nc) (base + Z.succ (Z.of_nat nc)));
        simpl; try lia.
      f_equal. lia.
    + destruct (Z.leb_spec base i),
               (Z.ltb_spec i (base + Z.of_nat nc)),
               (Z.ltb_spec i (base + Z.succ (Z.of_nat nc)));
        simpl; solve [reflexivity | lia].
Qed.

(** A two-level loop that rewrites cell [r * w + c] from its own old
    content, on rows of at most [w] cells: every visited cell is rewritten
    once and no other cell changes. *)
Lemma grid_update {T : Type} (g : Z -> Z -> T -> T) (w : Z) (a0 : array T)
    (nr nc : nat) :
  Z.of_nat nc <= w ->
  let a :=
    for_ nr
      (fun r a =>
         for_ nc (fun c a => store a (r * w + c) (g r c (a (r * w + c)))) a)
      a0 in
  (forall r c, 0 <= r < Z.of_nat nr -> 0 <= c < Z.of_nat nc ->
               a (r * w + c) = g r c (a0 (r * w + c))) /\
  (forall i, (forall r c, 0 <= r < Z.of_nat nr -> 0 <= c < Z.of_nat nc ->
                          i <> r * w + c) ->
             a i = a0 i).
Proof.
  intros Hw. induction nr as [|nr [IHin IHout]].
  - simpl. split; [intros; lia | reflexivity].
  - cbv zeta in *.
    change (for_ (S nr) ?F a0) with (F (Z.of_nat nr) (for_ nr F a0)).
    cbv beta. split.
    + intros r c Hr Hc.
      rewrite (row_update (g (Z.of_nat nr)) (Z.of_nat nr * w)).
      destruct (Z.leb_spec (Z.of_nat nr * w) (r * w + c)) as [Hle|Hlt];
        [destruct (Z.ltb_spec (r * w + c) (Z.of_nat nr * w + Z.of_nat nc))
           as [Hlt|Hge]|]; simpl.
      * assert (r = Z.of_nat nr) as -> by nia.
        replace (Z.of_nat nr * w + c - Z.of_nat nr * w) with c by lia.
        f_equal. apply IHout. intros r' c' Hr' Hc'. nia.
      * apply IHin; [nia|exact Hc].
      * apply IHin; [nia|exact Hc].
    + intros i Hi.
      rewrite (row_update (g (Z.of_nat nr)) (Z.of_nat nr * w)).
      destruct (Z.leb_spec (Z.of_nat nr * w) i) as [Hle|Hlt];
        [destruct (Z.ltb_spec i (Z.of_nat nr * w + Z.of_nat nc))
           as [Hlt|Hge]|]; simpl.
      * exfalso. apply (Hi (Z.of_nat nr) (i - Z.of_nat nr * w)); lia.
      * apply IHout. intros; apply Hi; lia.
      * apply IHout. intros; apply Hi; lia.
Qed.

(** ** The spectrum of one trial *)

Lemma continuous_fourier_spectrum_cell (fa : FourierAnalyzer) (row col : Z) :
  _xRes fa = _yRes fa ->
  0 <= row < _xRes fa -> 0 <= col < _xRes fa ->
  _complexSpectrum (continuous_fourier_spectrum fa) (row * _xRes fa + col) =
  spectrum_cell fa row col.
Proof.
  intros Hsq Hr Hc. unfold continuous_fourier_spectrum. cbn [_complexSpectrum set_complexSpectrum].
  apply (grid_update (fun r c _ => spectrum_cell fa r c) (_xRes fa)
           (_complexSpectrum fa) (Z.to_nat (_xRes fa)) (Z.to_nat (_yRes fa)));
    lia.
Qed.

Lemma power_fourier_spectrum_cell (fa : FourierAnalyzer) (r c : Z) :
  0 <= r < _yRes fa -> 0 <= c < _xRes fa ->
  _powerSpectrum (power_fourier_spectrum fa) (r * _xRes fa + c) =
  power_cell fa r c.
Proof.
  intros Hr Hc. unfold power_fourier_spectrum. cbn [_powerSpectrum set_powerSpectrum].
  apply (grid_update (fun r c _ => power_cell fa r c) (_xRes fa)
           (_powerSpectrum fa) (Z.to_nat (_yRes fa)) (Z.to_nat (_xRes fa)));
    lia.
Qed.

Lemma accumulate_cell (fa : FourierAnalyzer) (acc : array fval) (r c : Z) :
  0 <= r < _yRes fa -> 0 <= c < _xRes fa ->
  accumulate fa acc (r * _xRes fa + c) =
  fadd (acc (r * _xRes fa + c)) (_powerSpectrum fa (r * _xRes fa + c)).
Proof.
  intros Hr Hc. unfold accumulate.
  apply (grid_update
           (fun r c old => fadd old (_powerSpectrum fa (r * _xRes fa + c)))
           (_xRes fa) acc (Z.to_nat (_yRes fa)) (Z.to_nat (_xRes fa)));
    lia.
Qed.

Lemma running_mean_cell (fa : FourierAnalyzer) (acc : array fval)
    (trial r c : Z) :
  0 <= r < _yRes fa -> 0 <= c < _xRes fa ->
  _powerSpectrum (running_mean fa acc trial) (r * _xRes fa + c) =
  fdiv (acc (r * _xRes fa + c)) (of_int trial).
Proof.
  intros Hr Hc. unfold running_mean. cbn [_powerSpectrum set_powerSpectrum].
  apply (grid_update
           (fun r c _ => fdiv (acc (r * _xRes fa + c)) (of_int trial))
           (_xRes fa) (_powerSpectrum fa)
           (Z.to_nat (_yRes fa)) (Z.to_nat (_xRes fa)));
    lia.
Qed.

Lemma point_sum_from (wx wy : R) (pts : list Point2d) (f0 : R * R) :
  fold_left
    (fun (f : R * R) (p : Point2d) =>
       let exp := (- twopi * (wx * px p + wy * py p))%R in
       ((fst f + cos exp)%R, (snd f + sin exp)%R))
    pts f0 =
  ((fst f0 +
    sum_over pts (fun p => cos (- (2 * PI) * (wx * px p + wy * py p))))%R,
   (snd f0 +
    sum_over pts (fun p => sin (- (2 * PI) * (wx * px p + wy * py p))))%R).
Proof.
  revert f0. induction pts as [|p pts IH]; intros [fx fy]; simpl.
  - f_equal; lra.
  - rewrite IH. unfold twopi. simpl. f_equal; lra.
Qed.

Lemma point_sum_sum_over (wx wy : R) (pts : list Point2d) :
  point_sum wx wy pts =
  (sum_over pts (fun p => cos (- (2 * PI) * (wx * px p + wy * py p))),
   sum_over pts (fun p => sin (- (2 * PI) * (wx * px p + wy * py p)))).
Proof.
  unfold point_sum. rewrite point_sum_from. simpl. f_equal; lra.
Qed.

Lemma half_of_resolution (R : Z) :
  0 <= R -> double_to_int (IZR R * / 2) = R / 2.
Proof.
  intros HR. rewrite double_to_int_half. apply Z.quot_div_nonneg; lia.
Qed.

(** C4. On an R-by-R grid with frequency step D, the transform leaves in
    cell (row, col) the pair of the sums, over the points (x, y) of the set,
    of cos(-2 pi (wx x + wy y)) and of sin(-2 pi (wx x + wy y)), where
    wx = (col - R/2) D and wy = (row - R/2) D. *)
Theorem continuous_fourier_spectrum_sums (fa : FourierAnalyzer)
    (R row col : Z) :
  _xRes fa = R -> _yRes fa = R ->
  0 <= row < R -> 0 <= col < R ->
  let wx := (IZR (col - R / 2) * _frequencyStep fa)%R in
  let wy := (IZR (row - R / 2) * _frequencyStep fa)%R in
  _complexSpectrum (continuous_fourier_spectrum fa) (row * R + col) =
  (sum_over (_pts fa) (fun p => cos (- (2 * PI) * (wx * px p + wy * py p))),
   sum_over (_pts fa) (fun p => sin (- (2 * PI) * (wx * px p + wy * py p)))).
Proof.
  intros Hx Hy Hrow Hcol wx wy. subst R.
  rewrite continuous_fourier_spectrum_cell by (try symmetry; assumption).
  unfold spectrum_cell. rewrite Hy.
  rewrite half_of_resolution by lia.
  apply point_sum_sum_over.
Qed.

(** ** Power of the transform *)

Lemma power_of_transform_cell (fa : FourierAnalyzer) (r c : Z) :
  _xRes fa = _yRes fa ->
  0 <= r < _xRes fa -> 0 <= c < _xRes fa ->
  _powerSpectrum (power_fourier_spectrum (continuous_fourier_spectrum fa))
    (r * _xRes fa + c) =
  fdiv (Fin (fst (spectrum_cell fa r c) * fst (spectrum_cell fa r c) +
             snd (spectrum_cell fa r c) * snd (spectrum_cell fa r c))%R)
       (of_int (Z.of_nat (List.length (_pts fa)))).
Proof.
  intros Hsq Hr Hc.
  change (_xRes fa) with (_xRes (continuous_fourier_spectrum fa)) at 1.
  rewrite power_fourier_spectrum_cell
    by (cbn [continuous_fourier_spectrum set_complexSpectrum _xRes _yRes]; lia).
  unfold power_cell.
  change (_xRes (continuous_fourier_spectrum fa)) with (_xRes fa).
  change (_pts (continuous_fourier_spectrum fa)) with (_pts fa).
  now rewrite continuous_fourier_spectrum_cell.
Qed.

Lemma fdiv_zero_zero : fdiv (Fin 0) (of_int 0) = NaN.
Proof.
  unfold fdiv, of_int.
  destruct (Req_dec_T 0 0) as [_|H]; [reflexivity|now elim H].
Qed.

Lemma empty_point_set_power_cell (fa : FourierAnalyzer) (r c : Z) :
  _pts fa = [] ->
  _xRes fa = _yRes fa ->
  0 <= r < _xRes fa -> 0 <= c < _xRes fa ->
  _powerSpectrum (power_fourier_spectrum (continuous_fourier_spectrum fa))
    (r * _xRes fa + c) = NaN.
Proof.
  intros Hpts Hsq Hr Hc.
  rewrite power_of_transform_cell by assumption.
  unfold spectrum_cell. rewrite Hpts. cbn [point_sum fold_left fst snd List.length].
  replace (0 * 0 + 0 * 0)%R with 0%R by lra.
  apply fdiv_zero_zero.
Qed.

(** C3, as the code has it.  For a point set with no point the transform
    leaves 0 in both parts of every cell and the power step divides 0 by
    the count 0: every cell of the power spectrum is NaN.  Nothing stops
    the run. *)
Theorem power_of_empty_point_set (fa : FourierAnalyzer) (r c : Z) :
  _pts fa = [] ->
  _xRes fa = _yRes fa ->
  0 <= r < _xRes fa -> 0 <= c < _xRes fa ->
  _powerSpectrum (power_fourier_spectrum (continuous_fourier_spectrum fa))
    (r * _xRes fa + c) = NaN.
Proof. exact (empty_point_set_power_cell fa r c). Qed.

(** ** Radial reduction *)

Lemma radial_cell_as_spec (fa : FourierAnalyzer) (R r c : Z)
    (acc : array fval * array Z) :
  _xRes fa = R -> 0 <= R ->
  radial_cell fa (radial_halfwidth fa) r c acc =
  radial_cell_spec R (_powerSpectrum fa) r c acc.
Proof.
  intros HR Hpos. unfold radial_cell, radial_cell_spec, radial_halfwidth.
  rewrite HR, half_of_resolution by exact Hpos.
  rewrite squares_IZR.
  set (n := (R / 2 - c) * (R / 2 - c) + (R / 2 - r) * (R / 2 - r)).
  assert (Hn : 0 <= n)
    by (unfold n; apply Z.add_nonneg_nonneg; apply Z.square_nonneg).
  rewrite double_to_int_sqrt by exact Hn.
  unfold radial_skipped, radial_bin. fold n.
  pose proof (sqrt_IZR_gt n (R / 2 - 1) Hn) as Hgt.
  destruct (Rgt_dec (sqrt (IZR n)) (IZR (R / 2 - 1))) as [Hskip|Hkeep].
  - apply Hgt in Hskip.
    destruct (Z.ltb_spec (R / 2 - 1) 0),
             (Z.ltb_spec ((R / 2 - 1) * (R / 2 - 1)) n);
      simpl; solve [reflexivity | lia].
  - destruct (Z.ltb_spec (R / 2 - 1) 0) as [H1|H1];
      [elim Hkeep; apply Hgt; now left|].
    destruct (Z.ltb_spec ((R / 2 - 1) * (R / 2 - 1)) n) as [H2|H2];
      [elim Hkeep; apply Hgt; now right|].
    reflexivity.
Qed.

Lemma radial_accumulate_as_spec (fa : FourierAnalyzer) (R : Z) :
  _xRes fa = R -> _yRes fa = R -> 0 <= R ->
  radial_accumulate fa = radial_accumulate_spec R (_powerSpectrum fa).
Proof.
  intros Hx Hy Hpos. unfold radial_accumulate, radial_accumulate_spec.
  cbv zeta. rewrite Hy, Hx. apply for_ext. intros r acc _.
  apply for_ext. intros c acc' _.
  apply radial_cell_as_spec; assumption.
Qed.

Lemma for_store_each {T : Type} (g : Z -> T -> T) (a0 : array T) (n : nat)
    (i : Z) :
  for_ n (fun k a => store a k (g k (a k))) a0 i =
  if (0 <=? i) && (i <? Z.of_nat n) then g i (a0 i) else a0 i.
Proof.
  rewrite (for_ext _ (fun c a => store a (0 + c) (g c (a (0 + c)))))
    by (intros; now rewrite Z.add_0_l).
  rewrite row_update. rewrite Z.sub_0_r. reflexivity.
Qed.

Lemma half_bounds (R i : Z) : 0 <= i < R / 2 -> 2 <= R /\ R / 2 < R.
Proof.
  intros Hi. pose proof (Z.div_mod R 2). pose proof (Z.mod_pos_bound R 2). lia.
Qed.

Lemma radial_profile_bin (fa : FourierAnalyzer) (R i : Z) :
  _xRes fa = R -> 0 <= i < R / 2 ->
  radial_profile fa i =
  fdiv (fst (radial_accumulate fa) i) (of_int (snd (radial_accumulate fa) i)).
Proof.
  intros HR Hi. pose proof (half_bounds R i Hi) as [HR2 _].
  unfold radial_profile, radial_divide.
  rewrite (for_store_each
             (fun k old => fdiv old (of_int (snd (radial_accumulate fa) k)))).
  unfold radial_halfwidth. rewrite HR, half_of_resolution by lia.
  destruct (Z.leb_spec 0 i), (Z.ltb_spec i (Z.of_nat (Z.to_nat (R / 2))));
    simpl; solve [reflexivity | lia].
Qed.

(** The counter of a bin is raised by at most one per cell. *)
Lemma radial_cell_spec_count (R : Z) (power : array fval) (r c d : Z)
    (acc : array fval * array Z) :
  snd (radial_cell_spec R power r c acc) d = snd acc d \/
  (radial_skipped R r c = false /\ radial_bin R r c = d /\
   snd (radial_cell_spec R power r c acc) d = snd acc d + 1).
Proof.
  unfold radial_cell_spec. destruct (radial_skipped R r c); [now left|].
  cbn [snd]. destruct (Z.eq_dec d (radial_bin R r c)) as [->|Hne].
  - right. rewrite store_eq. auto.
  - left. now apply store_neq.
Qed.

(** The cell on the centre row at distance [d] from the centre is never
    left out and falls in bin [d]. *)
Lemma radial_axis_cell (R d : Z) :
  0 <= d < R / 2 ->
  radial_skipped R (R / 2) (R / 2 - d) = false /\
  radial_bin R (R / 2) (R / 2 - d) = d.
Proof.
  intros Hd. unfold radial_skipped, radial_bin.
  replace (R / 2 - (R / 2 - d)) with d by lia.
  replace (R / 2 - R / 2) with 0 by lia.
  rewrite Z.add_0_r. split.
  - destruct (Z.ltb_spec (R / 2 - 1) 0),
             (Z.ltb_spec ((R / 2 - 1) * (R / 2 - 1)) (d * d));
      simpl; solve [reflexivity | nia].
  - apply Z.sqrt_square. lia.
Qed.

Lemma radial_count_positive (R : Z) (power : array fval) (d : Z) :
  0 <= d < R / 2 ->
  1 <= snd (radial_accumulate_spec R power) d.
Proof.
  intros Hd. unfold radial_accumulate_spec.
  pose proof (half_bounds R d Hd) as [HR2 HR].
  assert (Hcell : forall r c acc,
             0 <= snd acc d -> 0 <= snd (radial_cell_spec R power r c acc) d).
  { intros r c acc H.
    destruct (radial_cell_spec_count R power r c d acc) as [->|(_ & _ & ->)];
      array_lia. }
  assert (Hcell1 : forall r c acc,
             1 <= snd acc d -> 1 <= snd (radial_cell_spec R power r c acc) d).
  { intros r c acc H.
    destruct (radial_cell_spec_count R power r c d acc) as [->|(_ & _ & ->)];
      array_lia. }
  apply (for_reaches (fun acc => 0 <= snd acc d) (fun acc => 1 <= snd acc d)
           _ _ _ (R / 2)).
  - lia.
  - unfold new_array. simpl. lia.
  - intros r acc _ H. apply for_preserves; [exact H|]. intros; now apply Hcell.
  - intros acc H.
    apply (for_reaches (fun acc => 0 <= snd acc d) (fun acc => 1 <= snd acc d)
             _ _ _ (R / 2 - d)).
    + lia.
    + exact H.
    + intros; now apply Hcell.
    + intros t Ht. unfold radial_cell_spec.
      destruct (radial_axis_cell R d Hd) as [-> ->].
      cbn [snd]. rewrite store_eq. array_lia.
    + intros; now apply Hcell1.
  - intros r acc _ _ H. apply for_preserves; [exact H|].
    intros; now apply Hcell1.
Qed.

Lemma IZR_pos_neq_0 (k : Z) : 1 <= k -> IZR k <> 0%R.
Proof. intros Hk. apply not_0_IZR. lia. Qed.

Lemma fadd_v_times (k : Z) (v : fval) :
  0 <= k -> fadd (v_times k v) v = v_times (k + 1) v.
Proof.
  intros Hk. unfold v_times.
  destruct (Z.eqb_spec (k + 1) 0) as [|_]; [lia|].
  destruct (Z.eqb_spec k 0) as [->|Hne]; destruct v as [x| | |]; simpl;
    try reflexivity; f_equal.
  - lra.
  - rewrite plus_IZR. lra.
Qed.

Lemma fdiv_v_times (k : Z) (v : fval) :
  1 <= k -> fdiv (v_times k v) (of_int k) = v.
Proof.
  intros Hk. unfold v_times, of_int.
  destruct (Z.eqb_spec k 0) as [|_]; [lia|].
  pose proof (IZR_pos_neq_0 k Hk) as Hnz.
  assert (Hpos : (0 <= IZR k)%R) by (apply IZR_le; lia).
  destruct v as [x| | |]; simpl; try reflexivity.
  - destruct (Req_dec_T (IZR k) 0) as [E|_]; [contradiction|].
    f_equal. field. exact Hnz.
  - destruct (Rle_dec 0 (IZR k)); [reflexivity|contradiction].
  - destruct (Rle_dec 0 (IZR k)); [reflexivity|contradiction].
Qed.

Lemma fdiv_finite (a : fval) (k : Z) :
  is_finite a -> 1 <= k -> is_finite (fdiv a (of_int k)).
Proof.
  intros Ha Hk. destruct a as [x| | |]; try contradiction.
  unfold fdiv, of_int.
  destruct (Req_dec_T (IZR k) 0) as [E|_]; [|exact I].
  now apply IZR_pos_neq_0 in E.
Qed.

Lemma fadd_finite (a b : fval) :
  is_finite a -> is_finite b -> is_finite (fadd a b).
Proof. destruct a, b; simpl; auto. Qed.

(** An invariant of the histogram that every kept cell maintains holds of
    the accumulated histogram. *)
Lemma radial_accumulate_spec_invariant (R : Z) (power : array fval)
    (J : array fval * array Z -> Prop) :
  J (new_array (Fin 0), new_array 0) ->
  (forall r c acc, 0 <= r < R -> 0 <= c < R -> J acc ->
                   J (radial_cell_spec R power r c acc)) ->
  J (radial_accumulate_spec R power).
Proof.
  intros Hinit Hcell. unfold radial_accumulate_spec.
  apply for_preserves; [exact Hinit|]. intros r acc Hr Hacc.
  apply for_preserves; [exact Hacc|]. intros c acc' Hc Hacc'.
  apply Hcell; solve [lia | assumption].
Qed.

Lemma radial_constant_input (R : Z) (power : array fval) (v : fval) :
  (forall r c, 0 <= r < R -> 0 <= c < R -> radial_skipped R r c = false ->
               power (r * R + c) = v) ->
  forall d, 0 <= snd (radial_accumulate_spec R power) d /\
            fst (radial_accumulate_spec R power) d =
            v_times (snd (radial_accumulate_spec R power) d) v.
Proof.
  intros Hv.
  apply (radial_accumulate_spec_invariant R power
           (fun acc => forall d, 0 <= snd acc d /\
                                 fst acc d = v_times (snd acc d) v)).
  - intros d. unfold new_array. simpl. split; [lia|reflexivity].
  - intros r c acc Hr Hc Hacc d. unfold radial_cell_spec.
    destruct (radial_skipped R r c) eqn:Hskip; [apply Hacc|].
    cbn [fst snd]. unfold store.
    destruct (Z.eq_dec d (radial_bin R r c)) as [->|_]; [|apply Hacc].
    destruct (Hacc (radial_bin R r c)) as [Hn Hsum].
    rewrite Hsum, (Hv r c Hr Hc Hskip). split; [array_lia|].
    now apply fadd_v_times.
Qed.

Lemma radial_finite_input (R : Z) (power : array fval) :
  (forall r c, 0 <= r < R -> 0 <= c < R -> is_finite (power (r * R + c))) ->
  forall d, is_finite (fst (radial_accumulate_spec R power) d).
Proof.
  intros Hfin.
  apply (radial_accumulate_spec_invariant R power
           (fun acc => forall d, is_finite (fst acc d))).
  - intros d. exact I.
  - intros r c acc Hr Hc Hacc d. unfold radial_cell_spec.
    destruct (radial_skipped R r c); [apply Hacc|].
    cbn [fst]. unfold store.
    destruct (Z.eq_dec d (radial_bin R r c)) as [->|_]; [|apply Hacc].
    apply fadd_finite; [apply Hacc|now apply Hfin].
Qed.

(** C5, as the code has it.  On an R-by-R grid the reduction is the one
    over integers: the bin of cell (r, c) is the integer square root d of
    (R/2 - c)^2 + (R/2 - r)^2; the cell is left out exactly when its
    distance itself exceeds R/2 - 1, that is when
    (R/2 - c)^2 + (R/2 - r)^2 > (R/2 - 1)^2 (or R/2 - 1 < 0); a kept cell
    adds its power to histogram[d] and one to count[d]; afterwards every
    bin i of [0, R/2) holds histogram[i] / count[i]. *)
Theorem radial_reduction_over_integers (fa : FourierAnalyzer) (R : Z) :
  _xRes fa = R -> _yRes fa = R -> 0 <= R ->
  (forall r c acc,
      radial_cell fa (radial_halfwidth fa) r c acc =
      radial_cell_spec R (_powerSpectrum fa) r c acc) /\
  radial_accumulate fa = radial_accumulate_spec R (_powerSpectrum fa) /\
  (forall i, 0 <= i < R / 2 ->
      radial_profile fa i =
      fdiv (fst (radial_accumulate_spec R (_powerSpectrum fa)) i)
           (of_int (snd (radial_accumulate_spec R (_powerSpectrum fa)) i))).
Proof.
  intros Hx Hy HR. split; [|split].
  - intros r c acc. now apply radial_cell_as_spec.
  - now apply radial_accumulate_as_spec.
  - intros i Hi. rewrite (radial_profile_bin fa R i Hx Hi).
    now rewrite (radial_accumulate_as_spec fa R Hx Hy HR).
Qed.

(** C8. When the power spectrum has the same value v in every cell that
    the reduction keeps, every bin of [0, R/2) of the radial profile is v. *)
Theorem radial_profile_of_constant (fa : FourierAnalyzer) (R : Z) (v : fval)
    (i : Z) :
  _xRes fa = R -> _yRes fa = R ->
  (forall r c, 0 <= r < R -> 0 <= c < R -> radial_skipped R r c = false ->
               _powerSpectrum fa (r * R + c) = v) ->
  0 <= i < R / 2 ->
  radial_profile fa i = v.
Proof.
  intros Hx Hy Hv Hi. pose proof (half_bounds R i Hi) as [HR2 _].
  rewrite (radial_profile_bin fa R i Hx Hi).
  rewrite (radial_accumulate_as_spec fa R Hx Hy) by lia.
  destruct (radial_constant_input R (_powerSpectrum fa) v Hv i) as [_ ->].
  apply fdiv_v_times. now apply radial_count_positive.
Qed.

(** X19. Every bin of [0, R/2) has at least one contributing cell (the one
    on the centre row at that distance), so the division that ends the
    reduction never has a zero count as divisor; the bin holds
    histogram / count, and it is finite whenever the power spectrum is
    finite on the grid. *)
Theorem radial_bins_are_never_empty (fa : FourierAnalyzer) (R i : Z) :
  _xRes fa = R -> _yRes fa = R ->
  0 <= i < R / 2 ->
  1 <= snd (radial_accumulate fa) i /\
  radial_profile fa i =
    fdiv (fst (radial_accumulate fa) i) (of_int (snd (radial_accumulate fa) i)) /\
  ((forall r c, 0 <= r < R -> 0 <= c < R ->
                is_finite (_powerSpectrum fa (r * R + c))) ->
   is_finite (radial_profile fa i)).
Proof.
  intros Hx Hy Hi. pose proof (half_bounds R i Hi) as [HR2 _].
  rewrite (radial_profile_bin fa R i Hx Hi).
  rewrite (radial_accumulate_as_spec fa R Hx Hy) by lia.
  pose proof (radial_count_positive R (_powerSpectrum fa) i Hi) as Hcount.
  split; [exact Hcount|]. split; [reflexivity|].
  intros Hfin. apply fdiv_finite; [|exact Hcount].
  now apply radial_finite_input.
Qed.





(** ** The analysis loop *)

Lemma config_resolution (fa fb : FourierAnalyzer) :
  config fa = config fb ->
  _nSamples fa = _nSamples fb /\ _nTrials fa = _nTrials fb /\
  _trialStepOut fa = _trialStepOut fb /\
  _xRes fa = _xRes fb /\ _yRes fa = _yRes fb.
Proof. unfold config. intros H. inversion H. auto. Qed.

Lemma trial_spectrum_config (n : Z) (w : world) :
  config (fst (trial_spectrum n w)) = config (analyzer w).
Proof.
  unfold trial_spectrum. destruct (Sample (sampler w) n) as [pts s].
  reflexivity.
Qed.

Lemma compute_radial_square (fa : FourierAnalyzer) :
  _xRes fa = _yRes fa ->
  compute_radial_mean_powerspectrum fa =
  RadialWritten (radial_lines (radial_halfwidth fa) (radial_profile fa)).
Proof.
  intros H. unfold compute_radial_mean_powerspectrum.
  rewrite H, Z.eqb_refl. reflexivity.
Qed.

Lemma compute_radial_not_square (fa : FourierAnalyzer) :
  _xRes fa <> _yRes fa ->
  compute_radial_mean_powerspectrum fa = RadialExit (-2).
Proof.
  intros H. unfold compute_radial_mean_powerspectrum.
  apply Z.eqb_neq in H. now rewrite H.
Qed.

(** One trial, by the cases of the snapshot test, on a square grid. *)
Lemma trial_step_square (n trial : Z) (w : world) :
  _xRes (analyzer w) = _yRes (analyzer w) ->
  let fa := fst (trial_spectrum n w) in
  let s := snd (trial_spectrum n w) in
  let acc := accumulate fa (powerAccum w) in
  trial_step n trial w =
  match snapshot_due trial (_trialStepOut (analyzer w)) with
  | None => Fault (mkWorld fa s acc (files w))
  | Some false => Normal (mkWorld fa s acc (files w))
  | Some true =>
      let fa' := running_mean fa acc trial in
      let name := mkName (GetType s) n trial in
      Normal
        (mkWorld fa' s acc
           (files w ++
            [ExrFile name (_powerSpectrum fa') (_xRes fa') (_yRes fa');
             RadialFile name
               (radial_lines (radial_halfwidth fa') (radial_profile fa'))]))
  end.
Proof.
  intros Hsq. cbv zeta. unfold trial_step.
  pose proof (trial_spectrum_config n w) as Hcfg.
  destruct (trial_spectrum n w) as [fa s]. cbn [fst snd] in *.
  apply config_resolution in Hcfg. destruct Hcfg as (_ & _ & Hstep & Hx & Hy).
  rewrite Hstep.
  destruct (snapshot_due trial (_trialStepOut (analyzer w))) as [[|]|];
    try reflexivity.
  unfold emit_snapshot. cbn [analyzer sampler powerAccum files].
  rewrite compute_radial_square; [reflexivity|].
  cbn [running_mean set_powerSpectrum _xRes _yRes]. congruence.
Qed.

(** What every trial does to the world, however it ends. *)
Lemma trial_step_world (n trial : Z) (w : world) :
  config (analyzer (world_of (trial_step n trial w))) = config (analyzer w) /\
  powerAccum (world_of (trial_step n trial w)) =
    accumulate (fst (trial_spectrum n w)) (powerAccum w) /\
  (_xRes (analyzer w) = _yRes (analyzer w) ->
   ~ is_exit (trial_step n trial w)).
Proof.
  pose proof (trial_spectrum_config n w) as Hcfg.
  unfold trial_step. destruct (trial_spectrum n w) as [fa s].
  cbn [fst snd] in *.
  destruct (snapshot_due trial (_trialStepOut fa)) as [[|]|];
    cbn [world_of analyzer powerAccum is_exit]; auto.
  unfold emit_snapshot. cbn [analyzer sampler powerAccum files].
  destruct (compute_radial_mean_powerspectrum
              (running_mean fa (accumulate fa (powerAccum w)) trial))
    as [code|lines] eqn:Hrad;
    cbn [world_of analyzer powerAccum is_exit]; repeat split; auto.
  intros Hsq _. apply config_resolution in Hcfg.
  rewrite compute_radial_square in Hrad; [discriminate|].
  cbn [running_mean set_powerSpectrum _xRes _yRes]. intuition congruence.
Qed.

Lemma for_m_outcome (Q : outcome -> Prop) (lo : Z) (n : nat)
    (body : Z -> world -> outcome) (w : world) :
  Q (Normal w) ->
  (forall k w', lo <= k < lo + Z.of_nat n -> Q (Normal w') -> Q (body k w')) ->
  Q (for_m lo n body w).
Proof.
  intros H0 Hbody. induction n as [|n IH]; [exact H0|].
  cbn [for_m].
  assert (IH' : Q (for_m lo n body w)) by (apply IH; intros; apply Hbody; [lia|assumption]).
  destruct (for_m lo n body w) as [w'|code w'|w']; cbn [bind]; try exact IH'.
  apply Hbody; [lia|exact IH'].
Qed.

Lemma sample_counts_outcome (Q : outcome -> Prop) (ns : list Z) (w : world) :
  Q (Normal w) ->
  (forall n w', In n ns -> Q (Normal w') -> Q (sample_count_trials n w')) ->
  Q (sample_counts ns w).
Proof.
  intros H0 Hbody. revert w H0.
  induction ns as [|n ns IH]; intros w H0; [exact H0|].
  cbn [sample_counts].
  assert (H1 : Q (sample_count_trials n w)) by (apply Hbody; [now left|exact H0]).
  destruct (sample_count_trials n w) as [w'|code w'|w']; cbn [bind];
    try exact H1.
  apply IH; [|exact H1]. intros; apply Hbody; [now right|assumption].
Qed.

(** The invariant of the loop: the configuration never changes, and on a
    square grid the run never leaves through [exit]. *)
Lemma RunAnalysis_invariant (fa : FourierAnalyzer) (s : SamplerState) :
  config (analyzer (world_of (RunAnalysis fa s))) = config fa /\
  (_xRes fa = _yRes fa -> ~ is_exit (RunAnalysis fa s)).
Proof.
  unfold RunAnalysis.
  set (Q := fun o : outcome =>
              config (analyzer (world_of o)) = config fa /\
              (_xRes fa = _yRes fa -> ~ is_exit o)).
  change (Q (sample_counts (_nSamples fa) (mkWorld fa s (new_array (Fin 0)) []))).
  apply sample_counts_outcome.
  - split; [reflexivity|]. intros _ H. exact H.
  - intros n w _ Hw. unfold sample_count_trials.
    apply for_m_outcome; [exact Hw|].
    intros trial w' _ [Hcfg _]. cbn [world_of] in Hcfg.
    destruct (trial_step_world n trial w') as (Hcfg' & _ & Hexit).
    split; [congruence|].
    intros Hsq. apply Hexit.
    apply config_resolution in Hcfg. intuition congruence.
Qed.

(** C10. Whatever configuration the constructor is given, the grid is
    512 by 512; it stays so throughout the analysis loop, and the loop
    never leaves the process through the fatal branch of the radial
    reduction. *)
Theorem resolution_is_fixed_and_square (nSamples : list Z)
    (nTrials trialStepOut : Z) (frequencyStep : R) (s : SamplerState) :
  let fa := FourierAnalyzer_new nSamples nTrials trialStepOut frequencyStep in
  _xRes fa = 512 /\ _yRes fa = 512 /\
  ~ is_exit (RunAnalysis fa s) /\
  _xRes (analyzer (world_of (RunAnalysis fa s))) = 512 /\
  _yRes (analyzer (world_of (RunAnalysis fa s))) = 512.
Proof.
  intros fa.
  destruct (RunAnalysis_invariant fa s) as [Hcfg Hexit].
  apply config_resolution in Hcfg. destruct Hcfg as (_ & _ & _ & Hx & Hy).
  repeat split; try reflexivity.
  - now apply Hexit.
  - exact Hx.
  - exact Hy.
Qed.

(** C7. On a grid that is not square the radial reduction leaves the
    process with status -2 before it builds a histogram or opens a file.
    In the snapshot block of the analysis loop this ends the run: the
    image of the snapshot is the last file written, no radial profile
    follows, and whatever would come next is not run. *)
Theorem non_square_grid_is_fatal (fa : FourierAnalyzer) (n trial : Z)
    (w : world) :
  _xRes fa <> _yRes fa ->
  analyzer w = fa ->
  compute_radial_mean_powerspectrum fa = RadialExit (-2) /\
  exists w',
    emit_snapshot n trial w = Exited (-2) w' /\
    (exists name img,
        files w' = files w ++ [ExrFile name img (_xRes fa) (_yRes fa)]) /\
    (forall name lines,
        In (RadialFile name lines) (files w') ->
        In (RadialFile name lines) (files w)) /\
    (forall next, bind (emit_snapshot n trial w) next = Exited (-2) w').
Proof.
  intros Hsq Hw. split; [now apply compute_radial_not_square|].
  unfold emit_snapshot. rewrite Hw.
  rewrite compute_radial_not_square
    by (cbn [running_mean set_powerSpectrum _xRes _yRes]; exact Hsq).
  eexists. split; [reflexivity|]. cbn [files].
  split; [eexists; eexists; reflexivity|]. split.
  - intros name lines Hin. apply in_app_or in Hin.
    destruct Hin as [Hin|[Hin|[]]]; [exact Hin|discriminate Hin].
  - intros next. reflexivity.
Qed.

(** The snapshot test for a trial of the loop and a non-zero interval. *)
Lemma snapshot_due_multiple (trial step : Z) :
  step <> 0 ->
  snapshot_due trial step = Some ((trial =? 1) || (trial mod step =? 0)).
Proof.
  intros Hstep. unfold snapshot_due.
  destruct (Z.eqb_spec trial 1) as [|_]; [reflexivity|].
  destruct (Z.eqb_spec step 0) as [|_]; [contradiction|].
  cbn [orb]. f_equal.
  destruct (Z.eqb_spec (Z.rem trial step) 0) as [H|H],
           (Z.eqb_spec (trial mod step) 0) as [H'|H']; try reflexivity.
  - apply Z.rem_divide in H; [|exact Hstep].
    apply Z.mod_divide in H; [contradiction|exact Hstep].
  - apply Z.mod_divide in H'; [|exact Hstep].
    apply Z.rem_divide in H'; [contradiction|exact Hstep].
Qed.

Lemma trial_numbers_succ (k : nat) :
  trial_numbers (S k) = trial_numbers k ++ [1 + Z.of_nat k].
Proof.
  unfold trial_numbers. rewrite seq_S, map_app. reflexivity.
Qed.

Lemma In_trial_numbers (k : nat) (t : Z) :
  In t (trial_numbers k) <-> 1 <= t <= Z.of_nat k.
Proof.
  unfold trial_numbers. rewrite in_map_iff. split.
  - intros (j & <- & Hj). apply in_seq in Hj. lia.
  - intros Ht. exists (Z.to_nat (t - 1)). split; [lia|].
    apply in_seq. lia.
Qed.

(** The first [k] trials of one sample count on a square grid, with a
    non-zero interval: they end normally and have written the scheduled
    files. *)
Lemma trials_files (n : Z) (w : world) (k : nat) :
  _xRes (analyzer w) = _yRes (analyzer w) ->
  _trialStepOut (analyzer w) <> 0 ->
  exists w',
    for_m 1 k (trial_step n) w = Normal w' /\
    config (analyzer w') = config (analyzer w) /\
    map event_tag (files w') =
    map event_tag (files w) ++
    flat_map (snapshot_tags n (_trialStepOut (analyzer w))) (trial_numbers k).
Proof.
  intros Hsq Hstep.
  induction k as [|k (w1 & Hrun & Hcfg & Hfiles)].
  - exists w. cbn. rewrite app_nil_r. auto.
  - cbn [for_m]. rewrite Hrun. cbn [bind].
    pose proof (config_resolution _ _ Hcfg) as (_ & _ & Hstep1 & Hx & Hy).
    assert (Hsq1 : _xRes (analyzer w1) = _yRes (analyzer w1)) by congruence.
    pose proof (trial_step_square n (1 + Z.of_nat k) w1 Hsq1) as Hts.
    cbv zeta in Hts. rewrite Hstep1 in Hts.
    rewrite snapshot_due_multiple in Hts by exact Hstep.
    pose proof (trial_spectrum_config n w1) as Hcfg1.
    rewrite trial_numbers_succ, flat_map_app, app_assoc, <- Hfiles.
    cbn [flat_map]. rewrite app_nil_r. unfold snapshot_tags.
    destruct ((1 + Z.of_nat k =? 1) ||
              ((1 + Z.of_nat k) mod _trialStepOut (analyzer w) =? 0));
      rewrite Hts; eexists; (split; [reflexivity|]);
      cbn [analyzer files running_mean set_powerSpectrum]; split.
    + rewrite <- Hcfg, <- Hcfg1. reflexivity.
    + rewrite map_app. reflexivity.
    + congruence.
    + now rewrite app_nil_r.
Qed.

Lemma sample_count_trials_files (n : Z) (w : world) :
  _xRes (analyzer w) = _yRes (analyzer w) ->
  _trialStepOut (analyzer w) <> 0 ->
  exists w',
    sample_count_trials n w = Normal w' /\
    config (analyzer w') = config (analyzer w) /\
    map event_tag (files w') =
    map event_tag (files w) ++
    flat_map (snapshot_tags n (_trialStepOut (analyzer w)))
      (trial_numbers (Z.to_nat (_nTrials (analyzer w)))).
Proof. intros Hsq Hstep. now apply trials_files. Qed.

Lemma sample_counts_files (ns : list Z) (w : world) :
  _xRes (analyzer w) = _yRes (analyzer w) ->
  _trialStepOut (analyzer w) <> 0 ->
  exists w',
    sample_counts ns w = Normal w' /\
    map event_tag (files w') =
    map event_tag (files w) ++
    snapshot_schedule ns (_nTrials (analyzer w)) (_trialStepOut (analyzer w)).
Proof.
  revert w. induction ns as [|n ns IH]; intros w Hsq Hstep.
  - exists w. cbn. rewrite app_nil_r. auto.
  - cbn [sample_counts].
    destruct (sample_count_trials_files n w Hsq Hstep)
      as (w1 & Hrun & Hcfg & Hfiles).
    rewrite Hrun. cbn [bind].
    pose proof (config_resolution _ _ Hcfg) as (_ & Htr & Hstep1 & Hx & Hy).
    destruct (IH w1) as (w2 & Hrun2 & Hfiles2); [congruence|congruence|].
    exists w2. split; [exact Hrun2|].
    rewrite Hfiles2, Hfiles, Htr, Hstep1, <- app_assoc. reflexivity.
Qed.

Lemma In_snapshot_schedule (ns : list Z) (nTrials step : Z)
    (k : file_kind) (n t : Z) :
  In (k, n, t) (snapshot_schedule ns nTrials step) <->
  In n ns /\ 1 <= t <= nTrials /\ (t = 1 \/ t mod step = 0).
Proof.
  unfold snapshot_schedule. rewrite in_flat_map. split.
  - intros (n' & Hn' & Hin). apply in_flat_map in Hin.
    destruct Hin as (t' & Ht' & Hin). apply In_trial_numbers in Ht'.
    unfold snapshot_tags in Hin.
    destruct (Z.eqb_spec t' 1) as [E1|E1],
             (Z.eqb_spec (t' mod step) 0) as [E2|E2]; cbn [orb] in Hin;
      try contradiction;
      (destruct Hin as [Hin|[Hin|[]]]; inversion Hin; subst;
       repeat split; solve [assumption | lia | auto]).
  - intros (Hn & Ht & Hdue). exists n. split; [exact Hn|].
    apply in_flat_map. exists t. split; [apply In_trial_numbers; lia|].
    unfold snapshot_tags.
    assert (Hb : (t =? 1) || (t mod step =? 0) = true).
    { apply orb_true_iff. destruct Hdue as [->| ->]; [left|right]; reflexivity. }
    rewrite Hb. destruct k; cbn; auto.
Qed.

(** C6. On a square grid and with a non-zero snapshot interval the run
    goes to its end, and the files it writes are, for every sample count in
    turn, an image and a radial profile at trial 1 and at every trial of
    1 .. nTrials that is a multiple of the interval, and nothing else. *)
Theorem snapshots_follow_schedule (fa : FourierAnalyzer) (s : SamplerState) :
  _xRes fa = _yRes fa ->
  _trialStepOut fa <> 0 ->
  exists w,
    RunAnalysis fa s = Normal w /\
    map event_tag (files w) =
      snapshot_schedule (_nSamples fa) (_nTrials fa) (_trialStepOut fa) /\
    (forall k n t,
        In (k, n, t) (map event_tag (files w)) <->
        In n (_nSamples fa) /\ 1 <= t <= _nTrials fa /\
        (t = 1 \/ t mod _trialStepOut fa = 0)).
Proof.
  intros Hsq Hstep. unfold RunAnalysis.
  destruct (sample_counts_files (_nSamples fa)
              (mkWorld fa s (new_array (Fin 0)) []) Hsq Hstep)
    as (w & Hrun & Hfiles).
  cbn [analyzer files map app] in Hfiles.
  exists w. split; [exact Hrun|]. split; [exact Hfiles|].
  intros k n t. rewrite Hfiles. apply In_snapshot_schedule.
Qed.

(** A sample count with a single trial on a square grid: the trial is
    trial 1, so its snapshot is written. *)
Lemma sample_count_single_trial (n : Z) (w : world) :
  _xRes (analyzer w) = _yRes (analyzer w) ->
  _nTrials (analyzer w) = 1 ->
  let fa := fst (trial_spectrum n w) in
  let s := snd (trial_spectrum n w) in
  let acc := accumulate fa (powerAccum w) in
  let fa' := running_mean fa acc 1 in
  let name := mkName (GetType s) n 1 in
  sample_count_trials n w =
  Normal
    (mkWorld fa' s acc
       (files w ++
        [ExrFile name (_powerSpectrum fa') (_xRes fa') (_yRes fa');
         RadialFile name
           (radial_lines (radial_halfwidth fa') (radial_profile fa'))])).
Proof.
  intros Hsq Htrials. cbv zeta. unfold sample_count_trials.
  rewrite Htrials. change (Z.to_nat 1) with 1%nat. cbn [for_m bind].
  change (1 + Z.of_nat 0) with 1.
  now rewrite (trial_step_square n 1 w Hsq).
Qed.

(** The power spectrum of a trial, cell by cell. *)
Lemma trial_spectrum_power (n : Z) (w : world) (R r c : Z) :
  _xRes (analyzer w) = R -> _yRes (analyzer w) = R ->
  0 <= r < R -> 0 <= c < R ->
  let pts := fst (Sample (sampler w) n) in
  let fa := clear_powerSpectrum (set_pts (analyzer w) pts) in
  _powerSpectrum (fst (trial_spectrum n w)) (r * R + c) =
  fdiv (Fin (fst (spectrum_cell fa r c) * fst (spectrum_cell fa r c) +
             snd (spectrum_cell fa r c) * snd (spectrum_cell fa r c))%R)
       (of_int (Z.of_nat (List.length pts))).
Proof.
  intros Hx Hy Hr Hc. cbv zeta. unfold trial_spectrum.
  destruct (Sample (sampler w) n) as [pts s]. cbn [fst].
  set (fa := clear_powerSpectrum (set_pts (analyzer w) pts)).
  assert (Hfx : _xRes fa = R) by exact Hx.
  assert (Hfy : _yRes fa = R) by exact Hy.
  rewrite <- Hfx at 1.
  rewrite power_of_transform_cell by congruence.
  reflexivity.
Qed.

(** ** Points that coincide *)

Lemma sum_over_repeat (p : Point2d) (f : Point2d -> R) (k : nat) :
  sum_over (repeat p k) f = (IZR (Z.of_nat k) * f p)%R.
Proof.
  induction k as [|k IH].
  - simpl. lra.
  - rewrite Nat2Z.inj_succ, succ_IZR. cbn [repeat sum_over]. rewrite IH. lra.
Qed.

Lemma spectrum_cell_at_origin (fa : FourierAnalyzer) (k : nat) (r c : Z) :
  _pts fa = repeat origin k ->
  spectrum_cell fa r c = (IZR (Z.of_nat k), 0%R).
Proof.
  intros Hpts. unfold spectrum_cell. rewrite Hpts, point_sum_sum_over.
  rewrite !sum_over_repeat. cbn [origin px py].
  set (wx := (IZR (c - _) * _)%R). set (wy := (IZR (r - _) * _)%R).
  replace (- (2 * PI) * (wx * 0 + wy * 0))%R with 0%R by ring.
  rewrite cos_0, sin_0. f_equal; ring.
Qed.

Lemma fdiv_fin (x : R) (k : Z) :
  1 <= k -> fdiv (Fin x) (of_int k) = Fin (x / IZR k).
Proof.
  intros Hk. unfold fdiv, of_int.
  destruct (Req_dec_T (IZR k) 0) as [E|_]; [|reflexivity].
  now apply IZR_pos_neq_0 in E.
Qed.

Lemma power_at_origin (k : Z) :
  1 <= k ->
  fdiv (Fin (IZR k * IZR k + 0 * 0)) (of_int k) = Fin (IZR k).
Proof.
  intros Hk. rewrite fdiv_fin by exact Hk. f_equal.
  field. now apply IZR_pos_neq_0.
Qed.

(** X2. Points that coincide at the origin interfere constructively: with
    k >= 1 points at (0, 0) every cell of the transform is (k, 0) and
    every cell of the power spectrum is k. *)
Theorem power_of_points_at_origin (fa : FourierAnalyzer) (k : nat) (r c : Z) :
  _pts fa = repeat origin k -> (1 <= k)%nat ->
  _xRes fa = _yRes fa ->
  0 <= r < _xRes fa -> 0 <= c < _xRes fa ->
  _complexSpectrum (continuous_fourier_spectrum fa) (r * _xRes fa + c) =
    (IZR (Z.of_nat k), 0%R) /\
  _powerSpectrum (power_fourier_spectrum (continuous_fourier_spectrum fa))
    (r * _xRes fa + c) = Fin (IZR (Z.of_nat k)).
Proof.
  intros Hpts Hk Hsq Hr Hc. split.
  - rewrite continuous_fourier_spectrum_cell by assumption.
    now apply spectrum_cell_at_origin.
  - rewrite power_of_transform_cell by assumption.
    rewrite (spectrum_cell_at_origin fa k r c Hpts). cbn [fst snd].
    rewrite Hpts, repeat_length. apply power_at_origin. lia.
Qed.

(** ** The running mean within one sample count *)

Lemma world_after_trials_succ (n : Z) (w : world) (k : nat) :
  _xRes (analyzer w) = _yRes (analyzer w) ->
  _trialStepOut (analyzer w) <> 0 ->
  for_m 1 k (trial_step n) w = Normal (world_after_trials n k w) /\
  config (analyzer (world_after_trials n k w)) = config (analyzer w) /\
  world_after_trials n (S k) w =
    world_of (trial_step n (1 + Z.of_nat k) (world_after_trials n k w)).
Proof.
  intros Hsq Hstep. unfold world_after_trials.
  destruct (trials_files n w k Hsq Hstep) as (wk & Hrun & Hcfg & _).
  cbn [for_m]. rewrite Hrun. cbn [bind world_of]. auto.
Qed.

Lemma accumulator_after_trials (n : Z) (w : world) (R : Z) (k : nat)
    (r c : Z) :
  _xRes (analyzer w) = R -> _yRes (analyzer w) = R ->
  _trialStepOut (analyzer w) <> 0 ->
  0 <= r < R -> 0 <= c < R ->
  powerAccum (world_after_trials n k w) (r * R + c) =
  sum_of_spectra (trial_power n w) k (powerAccum w (r * R + c)) (r * R + c).
Proof.
  intros Hx Hy Hstep Hr Hc.
  assert (Hsq : _xRes (analyzer w) = _yRes (analyzer w)) by congruence.
  induction k as [|k IH]; [reflexivity|].
  destruct (world_after_trials_succ n w k Hsq Hstep) as (_ & Hcfg & ->).
  destruct (trial_step_world n (1 + Z.of_nat k) (world_after_trials n k w))
    as (_ & -> & _).
  pose proof (trial_spectrum_config n (world_after_trials n k w)) as Hcfg1.
  rewrite Hcfg in Hcfg1. apply config_resolution in Hcfg1.
  destruct Hcfg1 as (_ & _ & _ & Hx1 & Hy1).
  cbn [sum_of_spectra]. rewrite <- IH. unfold trial_power.
  replace (S k - 1)%nat with k by lia.
  set (fa := fst (trial_spectrum n (world_after_trials n k w))) in *.
  assert (Hfx : _xRes fa = R) by congruence.
  rewrite <- Hfx. apply accumulate_cell; lia.
Qed.

(** X1. The running mean with what the accumulator held before.  In a sample
    count started in world [w], on a square grid and with a non-zero
    interval, the accumulator holds after trial k the spectra of the trials
    1 .. k added to what it held in [w]; a snapshot at trial k writes that
    sum divided by k.  [RunAnalysis] starts its first sample count with a
    zeroed accumulator. *)
Theorem snapshot_is_sum_over_trial (n : Z) (w : world) (R : Z) (k : nat)
    (r c : Z) :
  _xRes (analyzer w) = R -> _yRes (analyzer w) = R ->
  _trialStepOut (analyzer w) <> 0 ->
  snapshot_due (1 + Z.of_nat k) (_trialStepOut (analyzer w)) = Some true ->
  0 <= r < R -> 0 <= c < R ->
  exists name img lines,
    files (world_after_trials n (S k) w) =
      files (world_after_trials n k w) ++
      [ExrFile name img R R; RadialFile name lines] /\
    name_n name = n /\ name_trial name = 1 + Z.of_nat k /\
    powerAccum (world_after_trials n (S k) w) (r * R + c) =
      sum_of_spectra (trial_power n w) (S k) (powerAccum w (r * R + c))
        (r * R + c) /\
    img (r * R + c) =
      fdiv (sum_of_spectra (trial_power n w) (S k) (powerAccum w (r * R + c))
              (r * R + c))
           (of_int (1 + Z.of_nat k)).
Proof.
  intros Hx Hy Hstep Hdue Hr Hc.
  assert (Hsq : _xRes (analyzer w) = _yRes (analyzer w)) by congruence.
  pose proof (accumulator_after_trials n w R (S k) r c Hx Hy Hstep Hr Hc)
    as Hacc.
  destruct (world_after_trials_succ n w k Hsq Hstep) as (_ & Hcfg & Hnext).
  rewrite Hnext in *.
  set (wk := world_after_trials n k w) in *.
  pose proof (config_resolution _ _ Hcfg) as (_ & _ & Hstep1 & Hx1 & Hy1).
  assert (Hsq1 : _xRes (analyzer wk) = _yRes (analyzer wk)) by congruence.
  pose proof (trial_step_square n (1 + Z.of_nat k) wk Hsq1) as Hts.
  cbv zeta in Hts. rewrite Hstep1, Hdue in Hts.
  pose proof (trial_spectrum_config n wk) as Hcfg1.
  rewrite Hcfg in Hcfg1. apply config_resolution in Hcfg1.
  destruct Hcfg1 as (_ & _ & _ & Hfx & Hfy).
  rewrite Hts in *. cbn [world_of files powerAccum] in *.
  set (fa := fst (trial_spectrum n wk)) in *.
  set (acc := accumulate fa (powerAccum wk)) in *.
  assert (HfR : _xRes fa = R) by congruence.
  assert (HfR' : _yRes fa = R) by congruence.
  eexists. eexists. eexists. split; [|split; [|split; [|split]]].
  - cbn [running_mean set_powerSpectrum _xRes _yRes]. rewrite HfR, HfR'.
    reflexivity.
  - reflexivity.
  - reflexivity.
  - exact Hacc.
  - rewrite <- Hacc. rewrite <- HfR at 1.
    rewrite running_mean_cell by lia. now rewrite HfR.
Qed.

(** ** The transform as a sum of unit vectors *)

Lemma sum_over_ext (pts : list Point2d) (f g : Point2d -> R) :
  (forall p, f p = g p) -> sum_over pts f = sum_over pts g.
Proof.
  intros H. induction pts as [|p pts IH]; simpl; [reflexivity|].
  now rewrite H, IH.
Qed.

Lemma sum_over_const (pts : list Point2d) (v : R) :
  sum_over pts (fun _ => v) = (IZR (Z.of_nat (List.length pts)) * v)%R.
Proof.
  induction pts as [|p pts IH].
  - simpl. lra.
  - cbn [List.length sum_over]. rewrite Nat2Z.inj_succ, succ_IZR, IH. lra.
Qed.

Lemma sum_over_opp (pts : list Point2d) (f : Point2d -> R) :
  sum_over pts (fun p => - f p)%R = (- sum_over pts f)%R.
Proof.
  induction pts as [|p pts IH]; simpl; [lra|]. rewrite IH. lra.
Qed.

Lemma sum_over_combination (pts : list Point2d) (f g : Point2d -> R)
    (u v : R) :
  sum_over pts (fun p => u * f p + v * g p)%R =
  (u * sum_over pts f + v * sum_over pts g)%R.
Proof.
  induction pts as [|p pts IH]; simpl; [lra|]. rewrite IH. lra.
Qed.

Lemma sum_over_map (T : Point2d -> Point2d) (pts : list Point2d)
    (f : Point2d -> R) :
  sum_over (map T pts) f = sum_over pts (fun p => f (T p)).
Proof.
  induction pts as [|p pts IH]; simpl; [reflexivity|]. now rewrite IH.
Qed.

(** The cell of the transform and of the power spectrum through the
    phases of the points. *)
Lemma spectrum_cell_phases (fa : FourierAnalyzer) (R r c : Z) :
  _xRes fa = R -> _yRes fa = R -> 0 <= R ->
  spectrum_cell fa r c =
  (sum_over (_pts fa) (fun p => cos (cell_phase (_frequencyStep fa) R r c p)),
   sum_over (_pts fa) (fun p => sin (cell_phase (_frequencyStep fa) R r c p))).
Proof.
  intros Hx Hy HR. unfold spectrum_cell.
  rewrite Hx, Hy, half_of_resolution by exact HR.
  apply point_sum_sum_over.
Qed.

Lemma complex_cell_phases (fa : FourierAnalyzer) (R r c : Z) :
  _xRes fa = R -> _yRes fa = R ->
  0 <= r < R -> 0 <= c < R ->
  _complexSpectrum (continuous_fourier_spectrum fa) (r * R + c) =
  (sum_over (_pts fa) (fun p => cos (cell_phase (_frequencyStep fa) R r c p)),
   sum_over (_pts fa) (fun p => sin (cell_phase (_frequencyStep fa) R r c p))).
Proof.
  intros Hx Hy Hr Hc. rewrite <- Hx at 1.
  rewrite continuous_fourier_spectrum_cell by congruence.
  apply spectrum_cell_phases; solve [assumption | lia].
Qed.

Lemma power_cell_phases (fa : FourierAnalyzer) (R r c : Z) :
  _xRes fa = R -> _yRes fa = R ->
  0 <= r < R -> 0 <= c < R ->
  _powerSpectrum (power_fourier_spectrum (continuous_fourier_spectrum fa))
    (r * R + c) =
  fdiv
    (Fin
       (sum_over (_pts fa) (fun p => cos (cell_phase (_frequencyStep fa) R r c p)) *
        sum_over (_pts fa) (fun p => cos (cell_phase (_frequencyStep fa) R r c p)) +
        sum_over (_pts fa) (fun p => sin (cell_phase (_frequencyStep fa) R r c p)) *
        sum_over (_pts fa) (fun p => sin (cell_phase (_frequencyStep fa) R r c p))))
    (of_int (Z.of_nat (List.length (_pts fa)))).
Proof.
  intros Hx Hy Hr Hc. rewrite <- Hx at 1.
  rewrite power_of_transform_cell by congruence.
  rewrite (spectrum_cell_phases fa R r c Hx Hy) by lia. reflexivity.
Qed.

(** A sum of [N] unit vectors is at most [N] long. *)
Lemma unit_vector_sum_bound (pts : list Point2d) (f g : Point2d -> R) :
  (forall p, (f p * f p + g p * g p = 1)%R) ->
  (sum_over pts f * sum_over pts f + sum_over pts g * sum_over pts g <=
   IZR (Z.of_nat (List.length pts)) * IZR (Z.of_nat (List.length pts)))%R.
Proof.
  intros Hunit. induction pts as [|p pts IH].
  - simpl. lra.
  - cbn [List.length sum_over]. rewrite Nat2Z.inj_succ, succ_IZR.
    set (a := sum_over pts f) in *. set (b := sum_over pts g) in *.
    set (k := IZR (Z.of_nat (List.length pts))) in *.
    pose proof (Hunit p) as Hp.
    set (x := f p) in *. set (y := g p) in *.
    assert (Hk : (0 <= k)%R) by (apply IZR_le; lia).
    assert (Hcs : ((a * x + b * y) * (a * x + b * y) <= k * k)%R).
    { assert (Hid : ((a * x + b * y) * (a * x + b * y) +
                     (a * y - b * x) * (a * y - b * x) =
                     (a * a + b * b) * (x * x + y * y))%R) by ring.
      rewrite Hp in Hid. pose proof (Rle_0_sqr (a * y - b * x)) as Hsq.
      unfold Rsqr in Hsq. lra. }
    assert (Hdot : (a * x + b * y <= k)%R).
    { destruct (Rle_dec (a * x + b * y) k) as [H|H]; [exact H|]. nra. }
    nra.
Qed.

Lemma centre_in_grid (res : Z) : 1 <= res -> 0 <= res / 2 < res.
Proof.
  intros HR. pose proof (Z.div_mod res 2). pose proof (Z.mod_pos_bound res 2). lia.
Qed.

Lemma length_positive {A : Type} (l : list A) :
  l <> [] -> 1 <= Z.of_nat (List.length l).
Proof. destruct l; [congruence|]. cbn [List.length]. lia. Qed.

Lemma cell_phase_centre (D : R) (res : Z) (p : Point2d) :
  cell_phase D res (res / 2) (res / 2) p = 0%R.
Proof. unfold cell_phase. rewrite Z.sub_diag. ring. Qed.

Lemma cell_phase_mirror (D : R) (res r c r' c' : Z) (p : Point2d) :
  r + r' = 2 * (res / 2) -> c + c' = 2 * (res / 2) ->
  cell_phase D res r' c' p = (- cell_phase D res r c p)%R.
Proof.
  intros Hr Hc. unfold cell_phase.
  replace (c' - res / 2) with (- (c - res / 2)) by lia.
  replace (r' - res / 2) with (- (r - res / 2)) by lia.
  rewrite !opp_IZR. ring.
Qed.

Lemma cell_phase_translate (D : R) (res r c : Z) (tx ty : R) (p : Point2d) :
  cell_phase D res r c (mkPoint2d (px p + tx) (py p + ty)) =
  (cell_phase D res r c p + cell_phase D res r c (mkPoint2d tx ty))%R.
Proof. unfold cell_phase. cbn [px py]. ring. Qed.

Lemma centre_cell (fa : FourierAnalyzer) (res : Z) :
  _xRes fa = res -> _yRes fa = res -> 1 <= res ->
  _pts fa <> [] ->
  _complexSpectrum (continuous_fourier_spectrum fa) (res / 2 * res + res / 2) =
    (IZR (Z.of_nat (List.length (_pts fa))), 0%R) /\
  _powerSpectrum (power_fourier_spectrum (continuous_fourier_spectrum fa))
    (res / 2 * res + res / 2) = Fin (IZR (Z.of_nat (List.length (_pts fa)))).
Proof.
  intros Hx Hy HR Hpts. pose proof (centre_in_grid res HR) as Hc.
  pose proof (length_positive _ Hpts) as HN.
  assert (Hcos : sum_over (_pts fa)
                   (fun p => cos (cell_phase (_frequencyStep fa) res (res / 2) (res / 2) p)) =
                 IZR (Z.of_nat (List.length (_pts fa)))).
  { rewrite (sum_over_ext _ _ (fun _ => 1%R))
      by (intros p; rewrite cell_phase_centre; apply cos_0).
    rewrite sum_over_const. ring. }
  assert (Hsin : sum_over (_pts fa)
                   (fun p => sin (cell_phase (_frequencyStep fa) res (res / 2) (res / 2) p)) =
                 0%R).
  { rewrite (sum_over_ext _ _ (fun _ => 0%R))
      by (intros p; rewrite cell_phase_centre; apply sin_0).
    rewrite sum_over_const. ring. }
  split.
  - rewrite (complex_cell_phases fa res) by assumption.
    now rewrite Hcos, Hsin.
  - rewrite (power_cell_phases fa res) by assumption.
    rewrite Hcos, Hsin. now apply power_at_origin.
Qed.

(** X3. The zero-frequency cell.  On a res-by-res grid the cell in the
    centre, (res/2, res/2), holds (N, 0) after the transform and N after the
    power step, for every set of N >= 1 points, wherever they lie. *)
Theorem zero_frequency_cell (fa : FourierAnalyzer) (res : Z) :
  _xRes fa = res -> _yRes fa = res -> 1 <= res ->
  _pts fa <> [] ->
  _complexSpectrum (continuous_fourier_spectrum fa) (res / 2 * res + res / 2) =
    (IZR (Z.of_nat (List.length (_pts fa))), 0%R) /\
  _powerSpectrum (power_fourier_spectrum (continuous_fourier_spectrum fa))
    (res / 2 * res + res / 2) = Fin (IZR (Z.of_nat (List.length (_pts fa)))).
Proof. exact (centre_cell fa res). Qed.

(** X4. With N >= 1 points every cell of the power spectrum on the grid
    is a finite value between 0 and N. *)
Theorem power_between_zero_and_count (fa : FourierAnalyzer) (res r c : Z) :
  _xRes fa = res -> _yRes fa = res ->
  0 <= r < res -> 0 <= c < res ->
  _pts fa <> [] ->
  exists p : R,
    _powerSpectrum (power_fourier_spectrum (continuous_fourier_spectrum fa))
      (r * res + c) = Fin p /\
    (0 <= p <= IZR (Z.of_nat (List.length (_pts fa))))%R.
Proof.
  intros Hx Hy Hr Hc Hpts. pose proof (length_positive _ Hpts) as HN.
  rewrite (power_cell_phases fa res) by assumption.
  rewrite fdiv_fin by exact HN. eexists. split; [reflexivity|].
  set (a := sum_over _ (fun p => cos _)). set (b := sum_over _ (fun p => sin _)).
  set (n := IZR (Z.of_nat (List.length (_pts fa)))).
  assert (Hn : (1 <= n)%R) by (apply IZR_le; exact HN).
  assert (Hbound : (a * a + b * b <= n * n)%R).
  { apply unit_vector_sum_bound. intros p.
    pose proof (sin2_cos2 (cell_phase (_frequencyStep fa) res r c p)) as H.
    unfold Rsqr in H. lra. }
  assert (Hinv : (0 < / n)%R) by (apply Rinv_0_lt_compat; lra).
  assert (Hone : (n * / n = 1)%R) by (apply Rinv_r; lra).
  unfold Rdiv. split; nra.
Qed.

(** X5. Point symmetry about the centre.  Two cells of the grid that
    mirror each other in the centre (res/2, res/2) hold conjugate values after
    the transform and the same power. *)
Theorem power_spectrum_point_symmetric (fa : FourierAnalyzer)
    (res r c r' c' : Z) :
  _xRes fa = res -> _yRes fa = res ->
  0 <= r < res -> 0 <= c < res -> 0 <= r' < res -> 0 <= c' < res ->
  r + r' = 2 * (res / 2) -> c + c' = 2 * (res / 2) ->
  _complexSpectrum (continuous_fourier_spectrum fa) (r' * res + c') =
    (fst (_complexSpectrum (continuous_fourier_spectrum fa) (r * res + c)),
     Ropp (snd (_complexSpectrum (continuous_fourier_spectrum fa) (r * res + c)))) /\
  _powerSpectrum (power_fourier_spectrum (continuous_fourier_spectrum fa))
    (r' * res + c') =
  _powerSpectrum (power_fourier_spectrum (continuous_fourier_spectrum fa))
    (r * res + c).
Proof.
  intros Hx Hy Hr Hc Hr' Hc' Hrr Hcc.
  assert (Hcos : sum_over (_pts fa)
                   (fun p => cos (cell_phase (_frequencyStep fa) res r' c' p)) =
                 sum_over (_pts fa)
                   (fun p => cos (cell_phase (_frequencyStep fa) res r c p))).
  { apply sum_over_ext. intros p.
    rewrite (cell_phase_mirror _ res r c r' c') by assumption. apply cos_neg. }
  assert (Hsin : sum_over (_pts fa)
                   (fun p => sin (cell_phase (_frequencyStep fa) res r' c' p)) =
                 (- sum_over (_pts fa)
                      (fun p => sin (cell_phase (_frequencyStep fa) res r c p)))%R).
  { rewrite <- sum_over_opp. apply sum_over_ext. intros p.
    rewrite (cell_phase_mirror _ res r c r' c') by assumption. apply sin_neg. }
  split.
  - rewrite !(complex_cell_phases fa res) by assumption.
    cbn [fst snd]. now rewrite Hcos, Hsin.
  - rewrite !(power_cell_phases fa res) by assumption.
    rewrite Hcos, Hsin. do 2 f_equal. ring.
Qed.

(** X6. Moving the point set.  When all points are moved by the same
    vector, every cell of the power spectrum on the grid stays what it
    was (in ideal arithmetic). *)
Theorem power_spectrum_translation_invariant (fa : FourierAnalyzer)
    (res r c : Z) (tx ty : R) :
  _xRes fa = res -> _yRes fa = res ->
  0 <= r < res -> 0 <= c < res ->
  _powerSpectrum
    (power_fourier_spectrum
       (continuous_fourier_spectrum (set_pts fa (translate tx ty (_pts fa)))))
    (r * res + c) =
  _powerSpectrum (power_fourier_spectrum (continuous_fourier_spectrum fa))
    (r * res + c).
Proof.
  intros Hx Hy Hr Hc.
  rewrite (power_cell_phases (set_pts fa (translate tx ty (_pts fa))) res)
    by assumption.
  rewrite (power_cell_phases fa res) by assumption.
  cbn [set_pts _pts _frequencyStep]. unfold translate.
  rewrite length_map, !sum_over_map.
  set (D := _frequencyStep fa). set (phi := cell_phase D res r c (mkPoint2d tx ty)).
  rewrite (sum_over_ext _
             (fun p => cos (cell_phase D res r c (mkPoint2d (px p + tx) (py p + ty))))
             (fun p => cos phi * cos (cell_phase D res r c p) +
                       (- sin phi) * sin (cell_phase D res r c p))%R)
    by (intros p; rewrite cell_phase_translate, cos_plus; fold phi; ring).
  rewrite (sum_over_ext _
             (fun p => sin (cell_phase D res r c (mkPoint2d (px p + tx) (py p + ty))))
             (fun p => sin phi * cos (cell_phase D res r c p) +
                       cos phi * sin (cell_phase D res r c p))%R)
    by (intros p; rewrite cell_phase_translate, sin_plus; fold phi; ring).
  rewrite !sum_over_combination.
  set (a := sum_over _ (fun p => cos _)). set (b := sum_over _ (fun p => sin _)).
  do 2 f_equal. pose proof (sin2_cos2 phi) as H. unfold Rsqr in H. nra.
Qed.

(** ** More on the loops *)

(** A view [proj] of the state that one iteration [k0] changes by [f] and
    no other iteration changes. *)
Lemma for_single_hit {S A : Type} (proj : S -> A) (f : A -> A)
    (body : Z -> S -> S) (s : S) (n : nat) (k0 : Z) :
  (forall t, proj (body k0 t) = f (proj t)) ->
  (forall k t, 0 <= k < Z.of_nat n -> k <> k0 -> proj (body k t) = proj t) ->
  proj (for_ n body s) =
  if (0 <=? k0) && (k0 <? Z.of_nat n) then f (proj s) else proj s.
Proof.
  intros Hhit Hmiss. induction n as [|n IH].
  - simpl. destruct (Z.leb_spec 0 k0), (Z.ltb_spec k0 0);
      simpl; solve [reflexivity | lia].
  - cbn [for_].
    assert (IH' : proj (for_ n body s) =
                  if (0 <=? k0) && (k0 <? Z.of_nat n) then f (proj s)
                  else proj s)
      by (apply IH; intros; apply Hmiss; lia).
    rewrite Nat2Z.inj_succ.
    destruct (Z.eq_dec (Z.of_nat n) k0) as [E|E].
    + subst k0. rewrite Hhit, IH'.
      destruct (Z.leb_spec 0 (Z.of_nat n)),
               (Z.ltb_spec (Z.of_nat n) (Z.of_nat n)),
               (Z.ltb_spec (Z.of_nat n) (Z.succ (Z.of_nat n)));
        simpl; solve [reflexivity | lia].
    + rewrite Hmiss by lia. rewrite IH'.
      destruct (Z.leb_spec 0 k0), (Z.ltb_spec k0 (Z.of_nat n)),
               (Z.ltb_spec k0 (Z.succ (Z.of_nat n)));
        simpl; solve [reflexivity | lia].
Qed.

Lemma for_no_hit {S A : Type} (proj : S -> A) (body : Z -> S -> S) (s : S)
    (n : nat) :
  (forall k t, 0 <= k < Z.of_nat n -> proj (body k t) = proj t) ->
  proj (for_ n body s) = proj s.
Proof.
  intros Hmiss.
  apply (for_preserves (fun t => proj t = proj s)); [reflexivity|].
  intros k t Hk Ht. now rewrite Hmiss.
Qed.

(** A loop that appends one line per iteration. *)
Lemma for_append_lines {A : Type} (line : Z -> A) (n : nat) :
  for_ n (fun i (lines : list A) => lines ++ [line i]) [] =
  map (fun j => line (Z.of_nat j)) (seq 0 n).
Proof.
  induction n as [|n IH]; [reflexivity|].
  cbn [for_]. rewrite IH, seq_S, map_app. reflexivity.
Qed.

(** ** More on the radial reduction *)

Lemma radial_kept_bin_range (R r c : Z) :
  radial_skipped R r c = false -> 0 <= radial_bin R r c < R / 2.
Proof.
  unfold radial_skipped, radial_bin. intros H.
  apply orb_false_iff in H. destruct H as [H1 H2].
  apply Z.ltb_ge in H1. apply Z.ltb_ge in H2.
  split; [apply Z.sqrt_nonneg|].
  apply Z.le_lt_trans with (R / 2 - 1); [|lia].
  rewrite <- (Z.sqrt_square (R / 2 - 1)) by lia.
  now apply Z.sqrt_le_mono.
Qed.

Lemma nonzero_square (a : Z) : a <> 0 -> 1 <= a * a.
Proof. intros H. nia. Qed.

(** A cell other than the centre leaves bin 0 alone. *)
Lemma radial_off_centre (R : Z) (power : array fval) (r c : Z)
    (acc : array fval * array Z) :
  (r, c) <> (R / 2, R / 2) ->
  (fst (radial_cell_spec R power r c acc) 0,
   snd (radial_cell_spec R power r c acc) 0) = (fst acc 0, snd acc 0).
Proof.
  intros Hne. unfold radial_cell_spec.
  destruct (radial_skipped R r c); [reflexivity|].
  cbn [fst snd].
  assert (Hbin : radial_bin R r c <> 0).
  { unfold radial_bin. intros H.
    assert (Hn : 1 <= (R / 2 - c) * (R / 2 - c) + (R / 2 - r) * (R / 2 - r)).
    { pose proof (Z.square_nonneg (R / 2 - c)) as Hc2.
      pose proof (Z.square_nonneg (R / 2 - r)) as Hr2.
      destruct (Z.eq_dec r (R / 2)) as [Er|Er], (Z.eq_dec c (R / 2)) as [Ec|Ec];
        [exfalso; apply Hne; congruence| | |].
      - pose proof (nonzero_square (R / 2 - c)). lia.
      - pose proof (nonzero_square (R / 2 - r)). lia.
      - pose proof (nonzero_square (R / 2 - r)). lia. }
    apply Z.sqrt_le_mono in Hn. change (Z.sqrt 1) with 1 in Hn. lia. }
  rewrite !store_neq by congruence. reflexivity.
Qed.

Lemma radial_at_centre (R : Z) (power : array fval)
    (acc : array fval * array Z) :
  2 <= R ->
  (fst (radial_cell_spec R power (R / 2) (R / 2) acc) 0,
   snd (radial_cell_spec R power (R / 2) (R / 2) acc) 0) =
  (fadd (fst acc 0) (power (R / 2 * R + R / 2)), snd acc 0 + 1).
Proof.
  intros HR.
  assert (Hh : 1 <= R / 2)
    by (pose proof (Z.div_mod R 2); pose proof (Z.mod_pos_bound R 2); lia).
  destruct (radial_axis_cell R 0) as [Hkeep Hbin]; [lia|].
  rewrite Z.sub_0_r in Hkeep, Hbin.
  unfold radial_cell_spec. rewrite Hkeep, Hbin. cbn [fst snd].
  now rewrite !store_eq.
Qed.

Lemma fdiv_single (v : fval) : fdiv (fadd (Fin 0) v) (of_int 1) = v.
Proof.
  change (Fin 0) with (v_times 0 v).
  rewrite fadd_v_times by lia. rewrite fdiv_v_times by lia. reflexivity.
Qed.

Lemma first_bin_is_centre (fa : FourierAnalyzer) (R : Z) :
  _xRes fa = R -> _yRes fa = R -> 2 <= R ->
  snd (radial_accumulate fa) 0 = 1 /\
  radial_profile fa 0 = _powerSpectrum fa (R / 2 * R + R / 2).
Proof.
  intros Hx Hy HR.
  assert (Hh : 0 <= 0 < R / 2)
    by (pose proof (Z.div_mod R 2); pose proof (Z.mod_pos_bound R 2); lia).
  pose proof (centre_in_grid R ltac:(lia)) as Hc.
  rewrite (radial_profile_bin fa R 0 Hx Hh).
  rewrite (radial_accumulate_as_spec fa R Hx Hy) by lia.
  set (power := _powerSpectrum fa).
  set (proj := fun acc : array fval * array Z => (fst acc 0, snd acc 0)).
  set (hit := fun a : fval * Z =>
                (fadd (fst a) (power (R / 2 * R + R / 2)), snd a + 1)).
  assert (Hproj : proj (radial_accumulate_spec R power) =
                  hit (proj (new_array (Fin 0), new_array 0))).
  { unfold radial_accumulate_spec.
    rewrite (for_single_hit proj hit _ _ _ (R / 2)).
    - destruct (Z.leb_spec 0 (R / 2)), (Z.ltb_spec (R / 2) (Z.of_nat (Z.to_nat R)));
        simpl; solve [reflexivity | lia].
    - intros acc. rewrite (for_single_hit proj hit _ _ _ (R / 2)).
      + destruct (Z.leb_spec 0 (R / 2)),
                 (Z.ltb_spec (R / 2) (Z.of_nat (Z.to_nat R)));
          simpl; solve [reflexivity | lia].
      + intros t. unfold proj, hit. cbn [fst snd].
        now apply radial_at_centre.
      + intros c t _ Hne. unfold proj. apply radial_off_centre. congruence.
    - intros r acc _ Hne. apply for_no_hit. intros c t _.
      unfold proj. apply radial_off_centre. congruence. }
  unfold proj, hit in Hproj. cbn [fst snd] in Hproj.
  unfold new_array in Hproj. cbn beta in Hproj.
  pose proof (f_equal fst Hproj) as Hsum.
  pose proof (f_equal snd Hproj) as Hcount.
  cbn [fst snd] in Hsum, Hcount.
  rewrite Hcount, Hsum. split; [reflexivity|].
  apply fdiv_single.
Qed.

(** X7. Bin 0 of the radial profile.  On an R-by-R grid with R >= 2 the
    only cell of bin 0 is the centre: the first bin of the profile is the
    value of the power spectrum in cell (R/2, R/2), whatever it is. *)
Theorem radial_profile_first_bin (fa : FourierAnalyzer) (R : Z) :
  _xRes fa = R -> _yRes fa = R -> 2 <= R ->
  snd (radial_accumulate fa) 0 = 1 /\
  radial_profile fa 0 = _powerSpectrum fa (R / 2 * R + R / 2).
Proof. exact (first_bin_is_centre fa R). Qed.

(** X8. The histogram has R/2 bins and the reduction stays inside them:
    every kept cell falls in a bin of [0, R/2), so outside this range the
    histogram and the counter are what the allocation left (0), also after
    the division. *)
Theorem radial_histogram_stays_in_range (fa : FourierAnalyzer) (R i : Z) :
  _xRes fa = R -> _yRes fa = R -> 0 <= R ->
  ~ (0 <= i < R / 2) ->
  fst (radial_accumulate fa) i = Fin 0 /\
  snd (radial_accumulate fa) i = 0 /\
  radial_profile fa i = Fin 0.
Proof.
  intros Hx Hy HR Hi.
  assert (Hacc : fst (radial_accumulate fa) i = Fin 0 /\
                 snd (radial_accumulate fa) i = 0).
  { rewrite (radial_accumulate_as_spec fa R Hx Hy HR).
    apply (radial_accumulate_spec_invariant R (_powerSpectrum fa)
             (fun acc => fst acc i = Fin 0 /\ snd acc i = 0)).
    - split; reflexivity.
    - intros r c acc _ _ Hacc. unfold radial_cell_spec.
      destruct (radial_skipped R r c) eqn:Hskip; [exact Hacc|].
      pose proof (radial_kept_bin_range R r c Hskip) as Hbin.
      cbn [fst snd]. rewrite !store_neq by lia. exact Hacc. }
  destruct Hacc as [Hsum Hcount]. split; [exact Hsum|]. split; [exact Hcount|].
  unfold radial_profile, radial_divide.
  rewrite (for_store_each
             (fun k old => fdiv old (of_int (snd (radial_accumulate fa) k)))).
  unfold radial_halfwidth. rewrite Hx, half_of_resolution by exact HR.
  destruct (Z.leb_spec 0 i), (Z.ltb_spec i (Z.of_nat (Z.to_nat (R / 2))));
    simpl; solve [exact Hsum | lia].
Qed.

Lemma radial_lines_map (halfwidth : Z) (hist : array fval) :
  radial_lines halfwidth hist =
  map (fun j => (Z.of_nat j, hist (Z.of_nat j)))
    (seq 0 (Z.to_nat (halfwidth - 5))).
Proof.
  unfold radial_lines. apply (for_append_lines (fun i => (i, hist i))).
Qed.

(** X9. The text file of the radial profile.  On an R-by-R grid the
    function returns normally, and the file has one line per bin of
    [0, R/2 - 5), in order: line i holds i and the bin i of the profile.
    The last five bins are left out; for R/2 <= 5 the file is empty. *)
Theorem radial_file_lines (fa : FourierAnalyzer) (R : Z) :
  _xRes fa = R -> _yRes fa = R -> 0 <= R ->
  exists lines,
    compute_radial_mean_powerspectrum fa = RadialWritten lines /\
    Z.of_nat (List.length lines) = Z.max 0 (R / 2 - 5) /\
    forall i, 0 <= i < R / 2 - 5 ->
      nth_error lines (Z.to_nat i) = Some (i, radial_profile fa i).
Proof.
  intros Hx Hy HR. eexists. split; [apply compute_radial_square; congruence|].
  rewrite radial_lines_map. unfold radial_halfwidth.
  rewrite Hx, half_of_resolution by exact HR. split.
  - rewrite length_map, length_seq. lia.
  - intros i Hi.
    rewrite nth_error_map, nth_error_seq.
    destruct (Nat.ltb_spec (Z.to_nat i) (Z.to_nat (R / 2 - 5))) as [_|H]; [|lia].
    cbn [option_map Nat.add]. now rewrite Z2Nat.id by lia.
Qed.

(** X10. The profile averages.  When the power spectrum is finite and
    lies between [lo] and [hi] in every cell that the reduction keeps,
    every bin of [0, R/2) of the profile is finite and lies between [lo]
    and [hi]. *)
Theorem radial_profile_within_bounds (fa : FourierAnalyzer) (R i : Z)
    (lo hi : Rdefinitions.R) :
  _xRes fa = R -> _yRes fa = R ->
  (forall r c, 0 <= r < R -> 0 <= c < R -> radial_skipped R r c = false ->
     exists x, _powerSpectrum fa (r * R + c) = Fin x /\ (lo <= x <= hi)%R) ->
  0 <= i < R / 2 ->
  exists y, radial_profile fa i = Fin y /\ (lo <= y <= hi)%R.
Proof.
  intros Hx Hy Hpow Hi. pose proof (half_bounds R i Hi) as [HR2 _].
  rewrite (radial_profile_bin fa R i Hx Hi).
  rewrite (radial_accumulate_as_spec fa R Hx Hy) by lia.
  pose proof (radial_count_positive R (_powerSpectrum fa) i Hi) as Hcount.
  assert (Hinv : forall d,
             0 <= snd (radial_accumulate_spec R (_powerSpectrum fa)) d /\
             exists x,
               fst (radial_accumulate_spec R (_powerSpectrum fa)) d = Fin x /\
               (IZR (snd (radial_accumulate_spec R (_powerSpectrum fa)) d) * lo
                <= x <=
                IZR (snd (radial_accumulate_spec R (_powerSpectrum fa)) d) * hi)%R).
  { apply (radial_accumulate_spec_invariant R (_powerSpectrum fa)
             (fun acc => forall d,
                0 <= snd acc d /\
                exists x, fst acc d = Fin x /\
                          (IZR (snd acc d) * lo <= x <= IZR (snd acc d) * hi)%R)).
    - intros d. unfold new_array. cbn [fst snd]. split; [lia|].
      exists 0%R. split; [reflexivity|lra].
    - intros r c acc Hr Hc Hacc d. unfold radial_cell_spec.
      destruct (radial_skipped R r c) eqn:Hskip; [apply Hacc|].
      cbn [fst snd]. unfold store.
      destruct (Z.eq_dec d (radial_bin R r c)) as [->|_]; [|apply Hacc].
      destruct (Hacc (radial_bin R r c)) as (Hn & x & Hsum & Hx1).
      destruct (Hpow r c Hr Hc Hskip) as (p & Hp & Hp1).
      split; [array_lia|]. exists (x + p)%R. rewrite Hsum, Hp.
      split; [reflexivity|]. rewrite plus_IZR. lra. }
  destruct (Hinv i) as (_ & x & Hsum & Hbounds).
  rewrite Hsum, fdiv_fin by exact Hcount.
  eexists. split; [reflexivity|].
  set (k := IZR (snd (radial_accumulate_spec R (_powerSpectrum fa)) i)) in *.
  assert (Hk : (1 <= k)%R) by (apply IZR_le; exact Hcount).
  assert (Hpos : (0 <= / k)%R)
    by (apply Rlt_le, Rinv_0_lt_compat; lra).
  unfold Rdiv. split.
  - apply Rle_trans with (k * lo * / k)%R; [right; field; lra|].
    apply Rmult_le_compat_r; lra.
  - apply Rle_trans with (k * hi * / k)%R; [|right; field; lra].
    apply Rmult_le_compat_r; lra.
Qed.

Lemma square_grid_update_outside {T : Type} (g : Z -> Z -> T -> T) (R : Z)
    (a0 : array T) (i : Z) :
  ~ (0 <= i < R * R) ->
  for_ (Z.to_nat R)
    (fun r a =>
       for_ (Z.to_nat R)
         (fun c a => store a (r * R + c) (g r c (a (r * R + c)))) a)
    a0 i = a0 i.
Proof.
  intros Hi. destruct (Z_lt_le_dec R 0) as [Hneg|Hpos].
  - replace (Z.to_nat R) with O by lia. reflexivity.
  - destruct (grid_update g R a0 (Z.to_nat R) (Z.to_nat R)) as [_ Hout];
      [lia|].
    apply Hout. intros r c Hr Hc.
    assert (0 <= r < R /\ 0 <= c < R) by lia. nia.
Qed.

(** X11. The buffers of R * R cells.  On an R-by-R grid no loop over the
    grid changes a cell outside [0, R * R): not the clearing loop, the
    transform, the power step, the accumulation or the running mean. *)
Theorem grid_loops_stay_in_buffer (fa : FourierAnalyzer) (R : Z)
    (acc : array fval) (trial i : Z) :
  _xRes fa = R -> _yRes fa = R ->
  ~ (0 <= i < R * R) ->
  _powerSpectrum (clear_powerSpectrum fa) i = _powerSpectrum fa i /\
  _complexSpectrum (continuous_fourier_spectrum fa) i = _complexSpectrum fa i /\
  _powerSpectrum (power_fourier_spectrum fa) i = _powerSpectrum fa i /\
  accumulate fa acc i = acc i /\
  _powerSpectrum (running_mean fa acc trial) i = _powerSpectrum fa i.
Proof.
  intros Hx Hy Hi.
  split; [|split; [|split; [|split]]].
  - unfold clear_powerSpectrum. cbn [_powerSpectrum set_powerSpectrum].
    rewrite (for_store_each (fun _ _ => Fin 0)). rewrite Hx, Hy.
    destruct (Z.leb_spec 0 i), (Z.ltb_spec i (Z.of_nat (Z.to_nat (R * R))));
      simpl; solve [reflexivity | lia].
  - unfold continuous_fourier_spectrum. cbn [_complexSpectrum set_complexSpectrum].
    rewrite Hx, Hy.
    now apply (square_grid_update_outside (fun r c _ => spectrum_cell fa r c)).
  - unfold power_fourier_spectrum. cbn [_powerSpectrum set_powerSpectrum].
    rewrite Hx, Hy.
    now apply (square_grid_update_outside (fun r c _ => power_cell fa r c)).
  - unfold accumulate. rewrite Hx, Hy.
    now apply (square_grid_update_outside
                 (fun r c old => fadd old (_powerSpectrum fa (r * R + c)))).
  - unfold running_mean. cbn [_powerSpectrum set_powerSpectrum].
    rewrite Hx, Hy.
    now apply (square_grid_update_outside
                 (fun r c _ => fdiv (acc (r * R + c)) (of_int trial))).
Qed.

(** ** More on the analysis loop *)

Lemma for_m_fault_sticks (lo : Z) (k j : nat) (body : Z -> world -> outcome)
    (w w' : world) :
  for_m lo k body w = Fault w' ->
  for_m lo (k + j) body w = Fault w'.
Proof.
  intros H. induction j as [|j IH].
  - now rewrite Nat.add_0_r.
  - rewrite Nat.add_succ_r. cbn [for_m]. now rewrite IH.
Qed.

(** X12. A snapshot interval of 0.  On a square grid, with at least two
    trials and a first sample count n, the run writes the snapshot of
    trial 1 of n, then evaluates trial % 0 at trial 2 and stops there:
    nothing else is written, no later sample count is analysed. *)
Theorem zero_interval_faults (fa : FourierAnalyzer) (s : SamplerState)
    (n : Z) (rest : list Z) :
  _xRes fa = _yRes fa ->
  _trialStepOut fa = 0 ->
  2 <= _nTrials fa ->
  _nSamples fa = n :: rest ->
  exists w,
    RunAnalysis fa s = Fault w /\
    map event_tag (files w) = [(Image, n, 1); (Profile, n, 1)].
Proof.
  intros Hsq Hstep Htrials Hns. unfold RunAnalysis. rewrite Hns.
  cbn [sample_counts]. unfold sample_count_trials. cbn [analyzer].
  set (w0 := mkWorld fa s (new_array (Fin 0)) []).
  replace (Z.to_nat (_nTrials fa)) with (2 + (Z.to_nat (_nTrials fa) - 2))%nat
    by lia.
  pose proof (trial_step_square n 1 w0 Hsq) as H1. cbv zeta in H1.
  cbn [snapshot_due Z.eqb Pos.eqb] in H1.
  set (w1 := mkWorld _ _ _ _) in H1.
  assert (Hcfg1 : config (analyzer w1) = config fa).
  { unfold w1. cbn [analyzer running_mean set_powerSpectrum].
    apply (trial_spectrum_config n w0). }
  apply config_resolution in Hcfg1.
  destruct Hcfg1 as (_ & _ & Hstep1 & Hx1 & Hy1).
  assert (Hsq1 : _xRes (analyzer w1) = _yRes (analyzer w1)) by congruence.
  pose proof (trial_step_square n 2 w1 Hsq1) as H2. cbv zeta in H2.
  rewrite Hstep1, Hstep in H2. cbn [snapshot_due Z.eqb Pos.eqb] in H2.
  assert (Hrun : for_m 1 2 (trial_step n) w0 =
                 Fault (mkWorld (fst (trial_spectrum n w1))
                          (snd (trial_spectrum n w1))
                          (accumulate (fst (trial_spectrum n w1)) (powerAccum w1))
                          (files w1))).
  { cbn [for_m bind]. change (1 + Z.of_nat 0) with 1.
    change (1 + Z.of_nat 1) with 2. rewrite H1. cbn [bind]. exact H2. }
  rewrite (for_m_fault_sticks _ _ _ _ _ _ Hrun). cbn [bind].
  eexists. split; [reflexivity|]. reflexivity.
Qed.

Lemma sample_counts_without_trials (ns : list Z) (w : world) :
  _nTrials (analyzer w) <= 0 -> sample_counts ns w = Normal w.
Proof.
  intros H. induction ns as [|n ns IH]; [reflexivity|].
  cbn [sample_counts]. unfold sample_count_trials.
  replace (Z.to_nat (_nTrials (analyzer w))) with O by lia.
  cbn [for_m bind]. exact IH.
Qed.

(** X13. Nothing to analyse.  With no sample count, or with a number of
    trials that is zero or negative, the run ends normally at once: the
    sampler is not called, no file is written, the analyzer is unchanged. *)
Theorem nothing_to_analyse (fa : FourierAnalyzer) (s : SamplerState) :
  _nSamples fa = [] \/ _nTrials fa <= 0 ->
  RunAnalysis fa s = Normal (mkWorld fa s (new_array (Fin 0)) []).
Proof.
  intros [H|H]; unfold RunAnalysis.
  - now rewrite H.
  - now apply sample_counts_without_trials.
Qed.

Lemma trial_spectrum_sampler (n : Z) (w : world) :
  snd (trial_spectrum n w) = snd (Sample (sampler w) n).
Proof.
  unfold trial_spectrum. now destruct (Sample (sampler w) n).
Qed.

Lemma trial_spectrum_points (n : Z) (w : world) :
  _pts (fst (trial_spectrum n w)) = fst (Sample (sampler w) n).
Proof.
  unfold trial_spectrum. now destruct (Sample (sampler w) n).
Qed.

Lemma trial_step_sampler (n trial : Z) (w : world) :
  sampler (world_of (trial_step n trial w)) = snd (Sample (sampler w) n).
Proof.
  rewrite <- trial_spectrum_sampler. unfold trial_step.
  destruct (trial_spectrum n w) as [fa s]. cbn [snd].
  destruct (snapshot_due trial (_trialStepOut fa)) as [[|]|];
    cbn [world_of sampler]; try reflexivity.
  unfold emit_snapshot. cbn [analyzer sampler powerAccum files].
  destruct (compute_radial_mean_powerspectrum _); reflexivity.
Qed.

Lemma trials_sampler (n : Z) (w : world) (k : nat) :
  _xRes (analyzer w) = _yRes (analyzer w) ->
  _trialStepOut (analyzer w) <> 0 ->
  sampler (world_after_trials n k w) = sampler_after_trials n k (sampler w).
Proof.
  intros Hsq Hstep. induction k as [|k IH]; [reflexivity|].
  destruct (world_after_trials_succ n w k Hsq Hstep) as (_ & _ & ->).
  rewrite trial_step_sampler, IH. reflexivity.
Qed.

Lemma sample_counts_sampler (ns : list Z) (w : world) :
  _xRes (analyzer w) = _yRes (analyzer w) ->
  _trialStepOut (analyzer w) <> 0 ->
  exists w',
    sample_counts ns w = Normal w' /\
    sampler w' = sampler_after_run ns (_nTrials (analyzer w)) (sampler w).
Proof.
  revert w. induction ns as [|n ns IH]; intros w Hsq Hstep.
  - exists w. auto.
  - cbn [sample_counts]. unfold sample_count_trials.
    destruct (world_after_trials_succ n w (Z.to_nat (_nTrials (analyzer w)))
                Hsq Hstep) as (Hrun & Hcfg & _).
    rewrite Hrun. cbn [bind].
    pose proof (config_resolution _ _ Hcfg) as (_ & Htr & Hstep1 & Hx & Hy).
    destruct (IH (world_after_trials n (Z.to_nat (_nTrials (analyzer w))) w))
      as (w2 & Hrun2 & Hs2); [congruence|congruence|].
    exists w2. split; [exact Hrun2|].
    rewrite Hs2, Htr, trials_sampler by assumption. reflexivity.
Qed.

(** X14. The use of the sampler.  On a square grid and with a non-zero
    interval the run asks the sampler once per trial, for the sample count
    of the current outer iteration, in the order of the loops: its final
    state is the initial one after nTrials requests for each sample count
    in turn. *)
Theorem sampler_is_asked_once_per_trial (fa : FourierAnalyzer)
    (s : SamplerState) :
  _xRes fa = _yRes fa ->
  _trialStepOut fa <> 0 ->
  exists w,
    RunAnalysis fa s = Normal w /\
    sampler w = sampler_after_run (_nSamples fa) (_nTrials fa) s.
Proof.
  intros Hsq Hstep. unfold RunAnalysis.
  apply (sample_counts_sampler (_nSamples fa)
           (mkWorld fa s (new_array (Fin 0)) []) Hsq Hstep).
Qed.

Lemma fadd_NaN_r (a : fval) : fadd a NaN = NaN.
Proof. destruct a; reflexivity. Qed.

Lemma trial_step_accumulator_cell (n trial : Z) (w : world) (R r c : Z) :
  _xRes (analyzer w) = R -> _yRes (analyzer w) = R ->
  0 <= r < R -> 0 <= c < R ->
  powerAccum (world_of (trial_step n trial w)) (r * R + c) =
  fadd (powerAccum w (r * R + c))
       (_powerSpectrum (fst (trial_spectrum n w)) (r * R + c)).
Proof.
  intros Hx Hy Hr Hc.
  destruct (trial_step_world n trial w) as (_ & -> & _).
  pose proof (trial_spectrum_config n w) as Hcfg.
  apply config_resolution in Hcfg. destruct Hcfg as (_ & _ & _ & Hx1 & Hy1).
  set (fa := fst (trial_spectrum n w)) in *.
  assert (Hfx : _xRes fa = R) by congruence.
  rewrite <- Hfx. apply accumulate_cell; lia.
Qed.

(** X15. An empty sample.  When the sampler returns no point in a trial on
    a square grid, that trial leaves NaN in every grid cell of the
    accumulator, whatever the accumulator held before. *)
Theorem empty_sample_poisons_accumulator (n trial : Z) (w : world)
    (R r c : Z) :
  _xRes (analyzer w) = R -> _yRes (analyzer w) = R ->
  0 <= r < R -> 0 <= c < R ->
  fst (Sample (sampler w) n) = [] ->
  powerAccum (world_of (trial_step n trial w)) (r * R + c) = NaN.
Proof.
  intros Hx Hy Hr Hc Hempty.
  rewrite (trial_step_accumulator_cell n trial w R r c Hx Hy Hr Hc).
  rewrite (trial_spectrum_power n w R r c Hx Hy Hr Hc).
  rewrite Hempty. unfold spectrum_cell.
  cbn [clear_powerSpectrum set_powerSpectrum set_pts _pts point_sum fold_left
       fst snd List.length].
  change (Z.of_nat 0) with 0.
  replace (0 * 0 + 0 * 0)%R with 0%R by lra.
  rewrite fdiv_zero_zero. apply fadd_NaN_r.
Qed.

(** A trial started with NaN in a cell of the accumulator. *)
Lemma trial_step_poisoned (n trial : Z) (w : world) (R r c : Z) :
  _xRes (analyzer w) = R -> _yRes (analyzer w) = R ->
  0 <= r < R -> 0 <= c < R ->
  powerAccum w (r * R + c) = NaN ->
  config (analyzer (world_of (trial_step n trial w))) = config (analyzer w) /\
  powerAccum (world_of (trial_step n trial w)) (r * R + c) = NaN /\
  exists new,
    files (world_of (trial_step n trial w)) = files w ++ new /\
    Forall (image_is_nan_at (r * R + c)) new.
Proof.
  intros Hx Hy Hr Hc Hnan.
  assert (Hsq : _xRes (analyzer w) = _yRes (analyzer w)) by congruence.
  pose proof (trial_step_accumulator_cell n trial w R r c Hx Hy Hr Hc) as Hacc.
  rewrite Hnan in Hacc. cbn [fadd] in Hacc.
  destruct (trial_step_world n trial w) as (Hcfg & Hwhole & _).
  split; [exact Hcfg|]. split; [exact Hacc|].
  rewrite Hwhole in Hacc.
  pose proof (trial_spectrum_config n w) as Hcfg1.
  apply config_resolution in Hcfg1. destruct Hcfg1 as (_ & _ & _ & Hx1 & Hy1).
  rewrite (trial_step_square n trial w Hsq). cbv zeta.
  destruct (snapshot_due trial (_trialStepOut (analyzer w))) as [[|]|];
    cbn [world_of files].
  - eexists. split; [reflexivity|].
    repeat constructor. cbn [image_is_nan_at].
    set (fa := fst (trial_spectrum n w)) in *.
    assert (Hfx : _xRes fa = R) by congruence.
    rewrite <- Hfx at 1. rewrite running_mean_cell by lia.
    rewrite Hfx, Hacc. reflexivity.
  - exists []. rewrite app_nil_r. split; [reflexivity|constructor].
  - exists []. rewrite app_nil_r. split; [reflexivity|constructor].
Qed.

(** X16. NaN stays.  Once a grid cell of the accumulator holds NaN, it
    holds NaN after any number of further trials and after all further
    sample counts, however the run ends, and every image written on the
    way holds NaN in that cell: the accumulator is never cleared. *)
Theorem poisoned_cell_stays_poisoned (w : world) (R r c : Z) :
  _xRes (analyzer w) = R -> _yRes (analyzer w) = R ->
  0 <= r < R -> 0 <= c < R ->
  powerAccum w (r * R + c) = NaN ->
  (forall n lo k,
      powerAccum (world_of (for_m lo k (trial_step n) w)) (r * R + c) = NaN /\
      exists new,
        files (world_of (for_m lo k (trial_step n) w)) = files w ++ new /\
        Forall (image_is_nan_at (r * R + c)) new) /\
  (forall ns,
      powerAccum (world_of (sample_counts ns w)) (r * R + c) = NaN /\
      exists new,
        files (world_of (sample_counts ns w)) = files w ++ new /\
        Forall (image_is_nan_at (r * R + c)) new).
Proof.
  intros Hx Hy Hr Hc Hnan.
  set (Q := fun o : outcome =>
              config (analyzer (world_of o)) = config (analyzer w) /\
              powerAccum (world_of o) (r * R + c) = NaN /\
              exists new,
                files (world_of o) = files w ++ new /\
                Forall (image_is_nan_at (r * R + c)) new).
  assert (Hstart : Q (Normal w)).
  { split; [reflexivity|]. split; [exact Hnan|].
    exists []. rewrite app_nil_r. split; [reflexivity|constructor]. }
  assert (Hstep : forall n t w', Q (Normal w') -> Q (trial_step n t w')).
  { intros n t w' (Hcfg & Hnan' & new & Hfiles & Hall). cbn [world_of] in *.
    pose proof (config_resolution _ _ Hcfg) as (_ & _ & _ & Hx' & Hy').
    destruct (trial_step_poisoned n t w' R r c) as (Hcfg2 & Hnan2 & new2 & Hf2 & Hall2);
      try congruence; try assumption.
    split; [congruence|]. split; [exact Hnan2|].
    exists (new ++ new2). split.
    - rewrite Hf2, Hfiles, app_assoc. reflexivity.
    - apply Forall_app. split; assumption. }
  assert (Htrials : forall n lo k w', Q (Normal w') ->
                      Q (for_m lo k (trial_step n) w')).
  { intros n lo k w' Hw'. apply for_m_outcome; [exact Hw'|].
    intros t w'' _ Hw''. now apply Hstep. }
  split.
  - intros n lo k. apply (Htrials n lo k w Hstart).
  - intros ns. apply (sample_counts_outcome Q ns w Hstart).
    intros n w' _ Hw'. unfold sample_count_trials. now apply Htrials.
Qed.

(** ** A trial from its points *)

Lemma trial_spectrum_analyzer (n : Z) (w : world) :
  fst (trial_spectrum n w) =
  power_fourier_spectrum
    (continuous_fourier_spectrum
       (clear_powerSpectrum
          (set_pts (analyzer w) (fst (Sample (sampler w) n))))).
Proof.
  unfold trial_spectrum. now destruct (Sample (sampler w) n).
Qed.

(** X17. No carry-over in the spectrum buffers.  On the grid the power
    spectrum of a trial is determined by the points of the trial, the
    resolution and the frequency step: two worlds that agree on these get
    the same spectrum, whatever their buffers, accumulators and files
    hold. *)
Theorem trial_spectrum_forgets_buffers (n : Z) (w1 w2 : world) (R r c : Z) :
  _xRes (analyzer w1) = R -> _yRes (analyzer w1) = R ->
  _xRes (analyzer w2) = R -> _yRes (analyzer w2) = R ->
  _frequencyStep (analyzer w1) = _frequencyStep (analyzer w2) ->
  fst (Sample (sampler w1) n) = fst (Sample (sampler w2) n) ->
  0 <= r < R -> 0 <= c < R ->
  _powerSpectrum (fst (trial_spectrum n w1)) (r * R + c) =
  _powerSpectrum (fst (trial_spectrum n w2)) (r * R + c).
Proof.
  intros Hx1 Hy1 Hx2 Hy2 Hstep Hpts Hr Hc.
  rewrite !trial_spectrum_analyzer.
  rewrite !(power_cell_phases _ R) by assumption.
  cbn [clear_powerSpectrum set_powerSpectrum set_pts _pts _frequencyStep].
  now rewrite Hstep, Hpts.
Qed.

(** X18. The first snapshot.  A trial 1 that starts with 0 in the centre
    cell of the accumulator (as the first trial of a run does) and gets
    N >= 1 points ends normally on an R-by-R grid, R >= 12, and writes an
    image whose centre cell is N and a radial profile whose first line is
    bin 0 with the value N. *)
Theorem first_snapshot_zero_frequency (n : Z) (w : world) (R : Z) :
  _xRes (analyzer w) = R -> _yRes (analyzer w) = R -> 12 <= R ->
  powerAccum w (R / 2 * R + R / 2) = Fin 0 ->
  fst (Sample (sampler w) n) <> [] ->
  exists w' name img lines,
    trial_step n 1 w = Normal w' /\
    files w' = files w ++ [ExrFile name img R R; RadialFile name lines] /\
    name_n name = n /\ name_trial name = 1 /\
    img (R / 2 * R + R / 2) =
      Fin (IZR (Z.of_nat (List.length (fst (Sample (sampler w) n))))) /\
    nth_error lines 0 =
      Some (0, Fin (IZR (Z.of_nat (List.length (fst (Sample (sampler w) n)))))).
Proof.
  intros Hx Hy HR Hzero Hpts.
  assert (Hsq : _xRes (analyzer w) = _yRes (analyzer w)) by congruence.
  pose proof (centre_in_grid R ltac:(lia)) as Hc.
  assert (Hh : 6 <= R / 2)
    by (pose proof (Z.div_mod R 2); pose proof (Z.mod_pos_bound R 2); lia).
  pose proof (trial_step_square n 1 w Hsq) as Hstep. cbv zeta in Hstep.
  cbn [snapshot_due Z.eqb Pos.eqb] in Hstep.
  pose proof (trial_spectrum_config n w) as Hcfg.
  apply config_resolution in Hcfg. destruct Hcfg as (_ & _ & _ & Hfx & Hfy).
  assert (Hpower : _powerSpectrum (fst (trial_spectrum n w)) (R / 2 * R + R / 2) =
                   Fin (IZR (Z.of_nat (List.length (fst (Sample (sampler w) n)))))).
  { rewrite trial_spectrum_analyzer.
    apply (centre_cell
             (clear_powerSpectrum
                (set_pts (analyzer w) (fst (Sample (sampler w) n)))) R);
      solve [assumption | lia]. }
  set (fa := fst (trial_spectrum n w)) in *.
  set (acc := accumulate fa (powerAccum w)) in *.
  set (fa' := running_mean fa acc 1) in *.
  assert (HfR : _xRes fa = R) by congruence.
  assert (HfR' : _yRes fa = R) by congruence.
  assert (Himg : _powerSpectrum fa' (R / 2 * R + R / 2) =
                 Fin (IZR (Z.of_nat (List.length (fst (Sample (sampler w) n)))))).
  { unfold fa'. rewrite <- HfR at 2. rewrite running_mean_cell by lia.
    unfold acc. rewrite accumulate_cell by lia.
    rewrite HfR, Hzero, Hpower. apply fdiv_single. }
  eexists. eexists. eexists. eexists. split; [exact Hstep|].
  cbn [files]. change (_xRes fa') with (_xRes fa). change (_yRes fa') with (_yRes fa).
  rewrite HfR, HfR'. split; [reflexivity|].
  split; [reflexivity|]. split; [reflexivity|]. split; [exact Himg|].
  rewrite radial_lines_map. unfold radial_halfwidth.
  change (_xRes fa') with (_xRes fa). rewrite HfR, half_of_resolution by lia.
  destruct (Z.to_nat (R / 2 - 5)) as [|k] eqn:Hk; [lia|].
  cbn [seq map nth_error]. change (Z.of_nat 0) with 0.
  destruct (first_bin_is_centre fa' R) as [_ Hbin]; [exact HfR|exact HfR'|lia|].
  now rewrite Hbin, Himg.
Qed.

End Analysis.

Arguments mkWorld {SamplerState}.
Arguments analyzer {SamplerState}.
Arguments sampler {SamplerState}.
Arguments powerAccum {SamplerState}.
Arguments files {SamplerState}.
Arguments Normal {SamplerState}.
Arguments Exited {SamplerState}.
Arguments Fault {SamplerState}.
Arguments world_of {SamplerState}.
Arguments is_exit {SamplerState}.
Arguments emit_snapshot {SamplerState}.
Arguments trial_spectrum {SamplerState}.
Arguments trial_step {SamplerState}.
Arguments sample_count_trials {SamplerState}.
Arguments sample_counts {SamplerState}.
Arguments RunAnalysis {SamplerState}.
Arguments world_after_trials {SamplerState}.
Arguments trial_power {SamplerState}.
Arguments sampler_after_trials {SamplerState}.
Arguments sampler_after_run {SamplerState}.

(** * The properties at concrete inputs *)

(** ** A run with the sampler at the origin *)

(** With [n] points at the origin every cell of the transform is (n, 0)
    and every cell of the power spectrum of the trial is n. *)
Lemma origin_trial_power (n : Z) (w : world unit) (R r c : Z) :
  1 <= n ->
  _xRes (analyzer w) = R -> _yRes (analyzer w) = R ->
  0 <= r < R -> 0 <= c < R ->
  _powerSpectrum (fst (trial_spectrum origin_Sample n w)) (r * R + c) =
  Fin (IZR n).
Proof.
  intros Hn Hx Hy Hr Hc.
  rewrite (trial_spectrum_power unit origin_Sample n w R r c Hx Hy Hr Hc).
  cbn [origin_Sample fst].
  rewrite (spectrum_cell_at_origin _ (Z.to_nat n)) by reflexivity.
  cbn [fst snd]. rewrite repeat_length, Z2Nat.id by lia.
  now apply power_at_origin.
Qed.

(** One sample count of a single trial with that sampler on the 512 by 512
    grid: every cell of the accumulator grows by [n], and the snapshot of
    trial 1 holds the accumulator divided by 1. *)
Lemma origin_single_trial (n : Z) (w : world unit) :
  1 <= n ->
  _xRes (analyzer w) = 512 -> _yRes (analyzer w) = 512 ->
  _nTrials (analyzer w) = 1 ->
  exists (w' : world unit) (img : array fval) (lines : list (Z * fval)),
    sample_count_trials origin_Sample origin_GetType n w = Normal w' /\
    config (analyzer w') = config (analyzer w) /\
    files w' =
      files w ++
      [ExrFile (mkName "origin" n 1) img 512 512;
       RadialFile (mkName "origin" n 1) lines] /\
    forall r c, 0 <= r < 512 -> 0 <= c < 512 ->
      powerAccum w' (r * 512 + c) =
        fadd (powerAccum w (r * 512 + c)) (Fin (IZR n)) /\
      img (r * 512 + c) = fdiv (powerAccum w' (r * 512 + c)) (of_int 1).
Proof.
  intros Hn Hx Hy Htrials.
  assert (Hsq : _xRes (analyzer w) = _yRes (analyzer w)) by congruence.
  pose proof (sample_count_single_trial unit origin_Sample origin_GetType
                n w Hsq Htrials) as Hrun.
  cbv zeta in Hrun.
  pose proof (trial_spectrum_config unit origin_Sample n w) as Hcfg.
  pose proof (config_resolution _ _ Hcfg) as (_ & _ & _ & Hx1 & Hy1).
  set (fa := fst (trial_spectrum origin_Sample n w)) in *.
  set (acc := accumulate fa (powerAccum w)) in *.
  assert (Hfx : _xRes fa = 512) by congruence.
  assert (Hfy : _yRes fa = 512) by congruence.
  assert (Hacc : forall r c, 0 <= r < 512 -> 0 <= c < 512 ->
            acc (r * 512 + c) =
            fadd (powerAccum w (r * 512 + c)) (Fin (IZR n))).
  { intros r c Hr Hc. unfold acc. rewrite <- Hfx at 1.
    rewrite accumulate_cell by lia. rewrite Hfx. f_equal.
    now apply origin_trial_power. }
  eexists. eexists. eexists. split; [exact Hrun|].
  cbn [analyzer files powerAccum running_mean set_powerSpectrum _xRes _yRes origin_GetType].
  rewrite Hfx, Hfy.
  split; [exact Hcfg|]. split; [reflexivity|].
  intros r c Hr Hc. split; [now apply Hacc|].
  fold (running_mean fa acc 1).
  rewrite <- Hfx at 1. rewrite running_mean_cell by lia. now rewrite Hfx.
Qed.

(** C1, evaluated.  In the run over the sample counts 1 and 2, one trial
    each, the loop over the second sample count starts in a world whose
    accumulator holds 1, not 0, in cell 0: the sum of the first sample
    count is still there. *)
Theorem accumulator_is_not_reset :
  exists w1 : world unit,
    sample_count_trials origin_Sample origin_GetType 1
      (mkWorld two_counts_analyzer tt (new_array (Fin 0)) []) = Normal w1 /\
    RunAnalysis origin_Sample origin_GetType two_counts_analyzer tt =
      sample_counts origin_Sample origin_GetType [2] w1 /\
    powerAccum w1 0 = Fin 1.
Proof.
  destruct (origin_single_trial 1
              (mkWorld two_counts_analyzer tt (new_array (Fin 0)) []))
    as (w1 & img & lines & Hrun & _ & _ & Hcells);
    [lia|reflexivity|reflexivity|reflexivity|].
  exists w1. split; [exact Hrun|]. split.
  - unfold RunAnalysis. change (_nSamples two_counts_analyzer) with [1; 2].
    change (sample_counts origin_Sample origin_GetType [1; 2] ?w)
      with (bind unit (sample_count_trials origin_Sample origin_GetType 1 w)
              (sample_counts origin_Sample origin_GetType [2])).
    rewrite Hrun. reflexivity.
  - destruct (Hcells 0 0) as [Hacc _]; [lia|lia|].
    change (0 * 512 + 0) with 0 in Hacc. rewrite Hacc.
    cbn [powerAccum]. unfold new_array. cbn [fadd]. f_equal. lra.
Qed.

(** C2, evaluated.  In the same run the only power spectrum that the
    accumulator observes for the sample count 2 has 2 in cell 0, so the
    mean of that sample count after its trial 1 is 2; the image written
    for it holds 3, the sum over both sample counts divided by 1. *)
Theorem snapshot_mean_includes_earlier_counts :
  exists (w1 w2 : world unit) (img : array fval) (lines : list (Z * fval)),
    sample_count_trials origin_Sample origin_GetType 1
      (mkWorld two_counts_analyzer tt (new_array (Fin 0)) []) = Normal w1 /\
    RunAnalysis origin_Sample origin_GetType two_counts_analyzer tt =
      Normal w2 /\
    files w2 =
      files w1 ++
      [ExrFile (mkName "origin" 2 1) img 512 512;
       RadialFile (mkName "origin" 2 1) lines] /\
    _powerSpectrum (fst (trial_spectrum origin_Sample 2 w1)) 0 = Fin 2 /\
    img 0 = Fin 3.
Proof.
  destruct (origin_single_trial 1
              (mkWorld two_counts_analyzer tt (new_array (Fin 0)) []))
    as (w1 & img1 & lines1 & Hrun1 & Hcfg1 & _ & Hcells1);
    [lia|reflexivity|reflexivity|reflexivity|].
  apply config_resolution in Hcfg1.
  destruct Hcfg1 as (_ & Htrials & _ & Hx & Hy).
  cbn [analyzer] in Htrials, Hx, Hy.
  destruct (origin_single_trial 2 w1)
    as (w2 & img & lines & Hrun2 & _ & Hfiles & Hcells2);
    [lia|exact Hx|exact Hy|exact Htrials|].
  exists w1, w2, img, lines.
  split; [exact Hrun1|]. split; [|split; [exact Hfiles|split]].
  - unfold RunAnalysis. change (_nSamples two_counts_analyzer) with [1; 2].
    cbn [sample_counts]. rewrite Hrun1. cbn [bind]. rewrite Hrun2.
    reflexivity.
  - apply (origin_trial_power 2 w1 512 0 0); solve [lia | assumption].
  - destruct (Hcells1 0 0) as [Hacc1 _]; [lia|lia|].
    destruct (Hcells2 0 0) as [Hacc2 Himg]; [lia|lia|].
    change (0 * 512 + 0) with 0 in Hacc1, Hacc2, Himg.
    rewrite Himg, Hacc2, Hacc1. cbn [powerAccum]. unfold new_array.
    cbn [fadd]. rewrite fdiv_fin by lia. f_equal. lra.
Qed.

(** ** The transform and the power at concrete inputs *)

Lemma continuous_fourier_spectrum_sums_witness :
  _complexSpectrum (continuous_fourier_spectrum (analyzer_with [origin]))
    (1 * 512 + 2) =
  (sum_over (_pts (analyzer_with [origin]))
     (fun p =>
        cos (- (2 * PI) *
             (IZR (2 - 512 / 2) * _frequencyStep (analyzer_with [origin]) * px p +
              IZR (1 - 512 / 2) * _frequencyStep (analyzer_with [origin]) * py p))),
   sum_over (_pts (analyzer_with [origin]))
     (fun p =>
        sin (- (2 * PI) *
             (IZR (2 - 512 / 2) * _frequencyStep (analyzer_with [origin]) * px p +
              IZR (1 - 512 / 2) * _frequencyStep (analyzer_with [origin]) * py p)))).
Proof.
  apply (continuous_fourier_spectrum_sums (analyzer_with [origin]) 512 1 2);
    [reflexivity | reflexivity | lia | lia].
Defined.

(** With no point, cell 0 of the power spectrum is not zero. *)
Lemma power_of_no_point_is_not_zero :
  _pts (analyzer_with []) = [] /\
  _powerSpectrum
    (power_fourier_spectrum (continuous_fourier_spectrum (analyzer_with [])))
    0 <> Fin 0.
Proof.
  split; [reflexivity|].
  pose proof (empty_point_set_power_cell (analyzer_with []) 0 0
                eq_refl eq_refl) as H.
  change (_xRes (analyzer_with [])) with 512 in H.
  change (0 * 512 + 0) with 0 in H.
  rewrite H by lia. discriminate.
Qed.

Lemma power_of_empty_point_set_witness :
  _powerSpectrum
    (power_fourier_spectrum (continuous_fourier_spectrum (analyzer_with [])))
    (3 * _xRes (analyzer_with []) + 5) = NaN.
Proof.
  apply (power_of_empty_point_set (analyzer_with []) 3 5);
    [reflexivity | reflexivity | simpl; lia | simpl; lia].
Defined.

(** ** The radial reduction at concrete inputs *)

(** On the 512 by 512 grid the cell (255, 1) lies at distance
    sqrt(255^2 + 1): its bin is 255, which is not above 512/2 - 1, and yet
    the cell is left out: the counter of bin 255 stays at 0. *)
Lemma radial_cell_left_out_within_last_bin :
  double_to_int
    (sqrt (IZR (256 - 1) * IZR (256 - 1) + IZR (256 - 255) * IZR (256 - 255))) =
  255 /\
  ~ (255 > 512 / 2 - 1) /\
  snd (radial_cell (analyzer_with []) (radial_halfwidth (analyzer_with []))
         255 1 (new_array (Fin 0), new_array 0)) 255 = 0.
Proof.
  split; [|split].
  - rewrite squares_IZR, double_to_int_sqrt by lia. reflexivity.
  - change (512 / 2) with 256. lia.
  - rewrite (radial_cell_as_spec (analyzer_with []) 512) by (reflexivity || lia).
    unfold radial_cell_spec.
    change (radial_skipped 512 255 1) with true. reflexivity.
Qed.

Lemma radial_reduction_over_integers_witness :
  (forall r c acc,
      radial_cell (analyzer_with []) (radial_halfwidth (analyzer_with []))
        r c acc =
      radial_cell_spec 512 (_powerSpectrum (analyzer_with [])) r c acc) /\
  radial_accumulate (analyzer_with []) =
    radial_accumulate_spec 512 (_powerSpectrum (analyzer_with [])) /\
  (forall i, 0 <= i < 512 / 2 ->
      radial_profile (analyzer_with []) i =
      fdiv (fst (radial_accumulate_spec 512 (_powerSpectrum (analyzer_with []))) i)
           (of_int
              (snd (radial_accumulate_spec 512 (_powerSpectrum (analyzer_with []))) i))).
Proof.
  apply (radial_reduction_over_integers (analyzer_with []) 512);
    [reflexivity | reflexivity | lia].
Defined.

Lemma radial_profile_of_constant_witness :
  radial_profile constant_analyzer 3 = Fin 7.
Proof.
  apply (radial_profile_of_constant constant_analyzer 512 (Fin 7) 3);
    [reflexivity | reflexivity | intros; reflexivity |
     change (512 / 2) with 256; lia].
Defined.

Lemma radial_bins_are_never_empty_witness :
  1 <= snd (radial_accumulate constant_analyzer) 255 /\
  radial_profile constant_analyzer 255 =
    fdiv (fst (radial_accumulate constant_analyzer) 255)
         (of_int (snd (radial_accumulate constant_analyzer) 255)) /\
  is_finite (radial_profile constant_analyzer 255).
Proof.
  destruct (radial_bins_are_never_empty constant_analyzer 512 255)
    as (Hcount & Hbin & Hfinite);
    [reflexivity | reflexivity | change (512 / 2) with 256; lia |].
  split; [exact Hcount|]. split; [exact Hbin|].
  apply Hfinite. intros r c _ _. exact I.
Defined.

Lemma non_square_grid_is_fatal_witness :
  compute_radial_mean_powerspectrum rectangular_analyzer = RadialExit (-2) /\
  exists w' : world unit,
    emit_snapshot origin_GetType 1 1
      (mkWorld rectangular_analyzer tt (new_array (Fin 0)) []) =
      Exited (-2) w' /\
    (exists name img,
        files w' =
        files (mkWorld rectangular_analyzer tt (new_array (Fin 0)) []) ++
        [ExrFile name img (_xRes rectangular_analyzer)
           (_yRes rectangular_analyzer)]) /\
    (forall name lines,
        In (RadialFile name lines) (files w') ->
        In (RadialFile name lines)
          (files (mkWorld rectangular_analyzer tt (new_array (Fin 0)) []))) /\
    (forall next,
        bind unit
          (emit_snapshot origin_GetType 1 1
             (mkWorld rectangular_analyzer tt (new_array (Fin 0)) []))
          next = Exited (-2) w').
Proof.
  apply (non_square_grid_is_fatal unit origin_GetType rectangular_analyzer 1 1
           (mkWorld rectangular_analyzer tt (new_array (Fin 0)) []));
    [simpl; lia | reflexivity].
Defined.

(** ** The snapshot schedule at a concrete input *)

Lemma snapshots_follow_schedule_witness :
  exists w : world unit,
    RunAnalysis origin_Sample origin_GetType schedule_analyzer tt = Normal w /\
    map event_tag (files w) =
      snapshot_schedule (_nSamples schedule_analyzer)
        (_nTrials schedule_analyzer) (_trialStepOut schedule_analyzer) /\
    (forall k n t,
        In (k, n, t) (map event_tag (files w)) <->
        In n (_nSamples schedule_analyzer) /\
        1 <= t <= _nTrials schedule_analyzer /\
        (t = 1 \/ t mod _trialStepOut schedule_analyzer = 0)).
Proof.
  apply (snapshots_follow_schedule unit origin_Sample origin_GetType
           schedule_analyzer tt);
    [reflexivity | simpl; lia].
Defined.

(** The schedule of that run, written out. *)
Example schedule_of_four_trials :
  snapshot_schedule [1; 2] 4 2 =
  [(Image, 1, 1); (Profile, 1, 1); (Image, 1, 2); (Profile, 1, 2);
   (Image, 1, 4); (Profile, 1, 4);
   (Image, 2, 1); (Profile, 2, 1); (Image, 2, 2); (Profile, 2, 2);
   (Image, 2, 4); (Profile, 2, 4)].
Proof. reflexivity. Qed.

(** ** The running mean at a concrete input *)

Lemma snapshot_is_sum_over_trial_witness :
  exists name img lines,
    files (world_after_trials origin_Sample origin_GetType 1 1
             (mkWorld two_counts_analyzer tt (new_array (Fin 0)) [])) =
      files (world_after_trials origin_Sample origin_GetType 1 0
               (mkWorld two_counts_analyzer tt (new_array (Fin 0)) [])) ++
      [ExrFile name img 512 512; RadialFile name lines] /\
    name_n name = 1 /\ name_trial name = 1 + Z.of_nat 0 /\
    powerAccum
      (world_after_trials origin_Sample origin_GetType 1 1
         (mkWorld two_counts_analyzer tt (new_array (Fin 0)) []))
      (0 * 512 + 0) =
      sum_of_spectra
        (trial_power origin_Sample origin_GetType 1
           (mkWorld two_counts_analyzer tt (new_array (Fin 0)) []))
        1
        (powerAccum (mkWorld two_counts_analyzer tt (new_array (Fin 0)) [])
           (0 * 512 + 0))
        (0 * 512 + 0) /\
    img (0 * 512 + 0) =
      fdiv
        (sum_of_spectra
           (trial_power origin_Sample origin_GetType 1
              (mkWorld two_counts_analyzer tt (new_array (Fin 0)) []))
           1
           (powerAccum (mkWorld two_counts_analyzer tt (new_array (Fin 0)) [])
              (0 * 512 + 0))
           (0 * 512 + 0))
        (of_int (1 + Z.of_nat 0)).
Proof.
  apply (snapshot_is_sum_over_trial unit origin_Sample origin_GetType 1
           (mkWorld two_counts_analyzer tt (new_array (Fin 0)) []) 512 0 0 0);
    [reflexivity | reflexivity | simpl; lia | reflexivity | lia | lia].
Defined.

Lemma power_of_points_at_origin_witness :
  _complexSpectrum
    (continuous_fourier_spectrum (analyzer_with [origin; origin; origin]))
    (256 * _xRes (analyzer_with [origin; origin; origin]) + 256) =
    (IZR (Z.of_nat 3), 0%R) /\
  _powerSpectrum
    (power_fourier_spectrum
       (continuous_fourier_spectrum (analyzer_with [origin; origin; origin])))
    (256 * _xRes (analyzer_with [origin; origin; origin]) + 256) =
    Fin (IZR (Z.of_nat 3)).
Proof.
  apply (power_of_points_at_origin (analyzer_with [origin; origin; origin])
           3 256 256);
    [reflexivity | lia | reflexivity | simpl; lia | simpl; lia].
Defined.

(** ** The transform of three points *)

Lemma zero_frequency_cell_witness :
  _complexSpectrum (continuous_fourier_spectrum (analyzer_with three_points))
    (512 / 2 * 512 + 512 / 2) =
    (IZR (Z.of_nat (List.length (_pts (analyzer_with three_points)))), 0%R) /\
  _powerSpectrum
    (power_fourier_spectrum
       (continuous_fourier_spectrum (analyzer_with three_points)))
    (512 / 2 * 512 + 512 / 2) =
    Fin (IZR (Z.of_nat (List.length (_pts (analyzer_with three_points))))).
Proof.
  apply (zero_frequency_cell (analyzer_with three_points) 512);
    [reflexivity | reflexivity | lia | discriminate].
Defined.

Lemma power_between_zero_and_count_witness :
  exists p : R,
    _powerSpectrum
      (power_fourier_spectrum
         (continuous_fourier_spectrum (analyzer_with three_points)))
      (3 * 512 + 7) = Fin p /\
    (0 <= p <= IZR (Z.of_nat (List.length (_pts (analyzer_with three_points)))))%R.
Proof.
  apply (power_between_zero_and_count (analyzer_with three_points) 512 3 7);
    [reflexivity | reflexivity | lia | lia | discriminate].
Defined.

Lemma power_spectrum_point_symmetric_witness :
  _complexSpectrum (continuous_fourier_spectrum (analyzer_with three_points))
    (312 * 512 + 212) =
    (fst (_complexSpectrum
            (continuous_fourier_spectrum (analyzer_with three_points))
            (200 * 512 + 300)),
     Ropp (snd (_complexSpectrum
                  (continuous_fourier_spectrum (analyzer_with three_points))
                  (200 * 512 + 300)))) /\
  _powerSpectrum
    (power_fourier_spectrum
       (continuous_fourier_spectrum (analyzer_with three_points)))
    (312 * 512 + 212) =
  _powerSpectrum
    (power_fourier_spectrum
       (continuous_fourier_spectrum (analyzer_with three_points)))
    (200 * 512 + 300).
Proof.
  apply (power_spectrum_point_symmetric (analyzer_with three_points)
           512 200 300 312 212);
    [reflexivity | reflexivity | lia | lia | lia | lia
     | reflexivity | reflexivity].
Defined.

Lemma power_spectrum_translation_invariant_witness :
  _powerSpectrum
    (power_fourier_spectrum
       (continuous_fourier_spectrum
          (set_pts (analyzer_with three_points)
             (translate (/ 3) 2 (_pts (analyzer_with three_points))))))
    (3 * 512 + 7) =
  _powerSpectrum
    (power_fourier_spectrum
       (continuous_fourier_spectrum (analyzer_with three_points)))
    (3 * 512 + 7).
Proof.
  apply (power_spectrum_translation_invariant (analyzer_with three_points)
           512 3 7 (/ 3) 2);
    [reflexivity | reflexivity | lia | lia].
Defined.

(** ** The radial profile of a constant spectrum *)

Lemma radial_profile_first_bin_witness :
  snd (radial_accumulate constant_analyzer) 0 = 1 /\
  radial_profile constant_analyzer 0 =
    _powerSpectrum constant_analyzer (512 / 2 * 512 + 512 / 2).
Proof.
  apply (radial_profile_first_bin constant_analyzer 512);
    [reflexivity | reflexivity | lia].
Defined.

Lemma radial_histogram_stays_in_range_witness :
  fst (radial_accumulate constant_analyzer) 256 = Fin 0 /\
  snd (radial_accumulate constant_analyzer) 256 = 0 /\
  radial_profile constant_analyzer 256 = Fin 0.
Proof.
  apply (radial_histogram_stays_in_range constant_analyzer 512 256);
    [reflexivity | reflexivity | lia | change (512 / 2) with 256; lia].
Defined.

Lemma radial_file_lines_witness :
  exists lines,
    compute_radial_mean_powerspectrum constant_analyzer = RadialWritten lines /\
    Z.of_nat (List.length lines) = Z.max 0 (512 / 2 - 5) /\
    forall i, 0 <= i < 512 / 2 - 5 ->
      nth_error lines (Z.to_nat i) = Some (i, radial_profile constant_analyzer i).
Proof.
  apply (radial_file_lines constant_analyzer 512);
    [reflexivity | reflexivity | lia].
Defined.

Lemma radial_profile_within_bounds_witness :
  exists y, radial_profile constant_analyzer 5 = Fin y /\ (0 <= y <= 10)%R.
Proof.
  apply (radial_profile_within_bounds constant_analyzer 512 5 0 10);
    [reflexivity | reflexivity | | change (512 / 2) with 256; lia].
  intros r c _ _ _. exists 7%R. split; [reflexivity | lra].
Defined.

Lemma grid_loops_stay_in_buffer_witness :
  _powerSpectrum (clear_powerSpectrum constant_analyzer) (512 * 512) =
    _powerSpectrum constant_analyzer (512 * 512) /\
  _complexSpectrum (continuous_fourier_spectrum constant_analyzer) (512 * 512) =
    _complexSpectrum constant_analyzer (512 * 512) /\
  _powerSpectrum (power_fourier_spectrum constant_analyzer) (512 * 512) =
    _powerSpectrum constant_analyzer (512 * 512) /\
  accumulate constant_analyzer (new_array (Fin 0)) (512 * 512) =
    new_array (Fin 0) (512 * 512) /\
  _powerSpectrum (running_mean constant_analyzer (new_array (Fin 0)) 1)
    (512 * 512) =
    _powerSpectrum constant_analyzer (512 * 512).
Proof.
  apply (grid_loops_stay_in_buffer constant_analyzer 512 (new_array (Fin 0)) 1
           (512 * 512));
    [reflexivity | reflexivity | lia].
Defined.

(** ** Runs at the edges of the configuration *)

Lemma zero_interval_faults_witness :
  exists w : world unit,
    RunAnalysis origin_Sample origin_GetType zero_interval_analyzer tt =
      Fault w /\
    map event_tag (files w) = [(Image, 3, 1); (Profile, 3, 1)].
Proof.
  apply (zero_interval_faults unit origin_Sample origin_GetType
           zero_interval_analyzer tt 3 [5]);
    [reflexivity | reflexivity | simpl; lia | reflexivity].
Defined.

Lemma nothing_to_analyse_witness :
  RunAnalysis origin_Sample origin_GetType idle_analyzer tt =
  Normal (mkWorld idle_analyzer tt (new_array (Fin 0)) []).
Proof.
  apply (nothing_to_analyse unit origin_Sample origin_GetType idle_analyzer tt).
  left. reflexivity.
Defined.

Lemma sampler_is_asked_once_per_trial_witness :
  exists w : world nat,
    RunAnalysis counting_Sample counting_GetType schedule_analyzer 0%nat =
      Normal w /\
    sampler w =
      sampler_after_run counting_Sample (_nSamples schedule_analyzer)
        (_nTrials schedule_analyzer) 0%nat.
Proof.
  apply (sampler_is_asked_once_per_trial nat counting_Sample counting_GetType
           schedule_analyzer 0%nat);
    [reflexivity | simpl; lia].
Defined.

(** Two sample counts of four trials each: eight requests. *)
Example counting_sampler_after_run :
  sampler_after_run counting_Sample [1; 2] 4 0%nat = 8%nat.
Proof. reflexivity. Qed.

Lemma empty_sample_poisons_accumulator_witness :
  powerAccum
    (world_of
       (trial_step origin_Sample origin_GetType 0 1
          (mkWorld two_counts_analyzer tt (new_array (Fin 0)) [])))
    (3 * 512 + 7) = NaN.
Proof.
  apply (empty_sample_poisons_accumulator unit origin_Sample origin_GetType
           0 1 (mkWorld two_counts_analyzer tt (new_array (Fin 0)) [])
           512 3 7);
    [reflexivity | reflexivity | lia | lia | reflexivity].
Defined.

Lemma poisoned_cell_stays_poisoned_witness :
  (forall n lo k,
      powerAccum
        (world_of
           (for_m unit lo k (trial_step origin_Sample origin_GetType n)
              (mkWorld two_counts_analyzer tt (new_array NaN) [])))
        (3 * 512 + 7) = NaN /\
      exists new,
        files
          (world_of
             (for_m unit lo k (trial_step origin_Sample origin_GetType n)
                (mkWorld two_counts_analyzer tt (new_array NaN) []))) =
          files (mkWorld two_counts_analyzer tt (new_array NaN) []) ++ new /\
        Forall (image_is_nan_at (3 * 512 + 7)) new) /\
  (forall ns,
      powerAccum
        (world_of
           (sample_counts origin_Sample origin_GetType ns
              (mkWorld two_counts_analyzer tt (new_array NaN) [])))
        (3 * 512 + 7) = NaN /\
      exists new,
        files
          (world_of
             (sample_counts origin_Sample origin_GetType ns
                (mkWorld two_counts_analyzer tt (new_array NaN) []))) =
          files (mkWorld two_counts_analyzer tt (new_array NaN) []) ++ new /\
        Forall (image_is_nan_at (3 * 512 + 7)) new).
Proof.
  apply (poisoned_cell_stays_poisoned unit origin_Sample origin_GetType
           (mkWorld two_counts_analyzer tt (new_array NaN) []) 512 3 7);
    [reflexivity | reflexivity | lia | lia | reflexivity].
Defined.

(** ** A trial at concrete inputs *)

Lemma trial_spectrum_forgets_buffers_witness :
  _powerSpectrum
    (fst (trial_spectrum origin_Sample 2
            (mkWorld two_counts_analyzer tt (new_array (Fin 0)) [])))
    (3 * 512 + 7) =
  _powerSpectrum
    (fst (trial_spectrum origin_Sample 2
            (mkWorld constant_analyzer tt (new_array NaN) [])))
    (3 * 512 + 7).
Proof.
  apply (trial_spectrum_forgets_buffers unit origin_Sample 2
           (mkWorld two_counts_analyzer tt (new_array (Fin 0)) [])
           (mkWorld constant_analyzer tt (new_array NaN) []) 512 3 7);
    [reflexivity | reflexivity | reflexivity | reflexivity | reflexivity
     | reflexivity | lia | lia].
Defined.

Lemma first_snapshot_zero_frequency_witness :
  exists (w' : world unit) name img lines,
    trial_step origin_Sample origin_GetType 2 1
      (mkWorld two_counts_analyzer tt (new_array (Fin 0)) []) = Normal w' /\
    files w' =
      files (mkWorld two_counts_analyzer tt (new_array (Fin 0)) []) ++
      [ExrFile name img 512 512; RadialFile name lines] /\
    name_n name = 2 /\ name_trial name = 1 /\
    img (512 / 2 * 512 + 512 / 2) =
      Fin (IZR (Z.of_nat
                  (List.length
                     (fst (origin_Sample
                             (sampler
                                (mkWorld two_counts_analyzer tt
                                   (new_array (Fin 0)) [])) 2))))) /\
    nth_error lines 0 =
      Some (0,
            Fin (IZR (Z.of_nat
                        (List.length
                           (fst (origin_Sample
                                   (sampler
                                      (mkWorld two_counts_analyzer tt
                                         (new_array (Fin 0)) [])) 2)))))).
Proof.
  apply (first_snapshot_zero_frequency unit origin_Sample origin_GetType 2
           (mkWorld two_counts_analyzer tt (new_array (Fin 0)) []) 512);
    [reflexivity | reflexivity | lia | reflexivity | discriminate].
Defined.

(** ** The division of an empty bin *)


